(** * recitale: incremental-build cache and rendering pipeline

    A shallow embedding of [recitale/utils.py] (superficial option
    stripping) and of the rendering workers and coordinator of
    [recitale/recitale.py], with the properties of the specification
    stated and settled against it. *)

From stdpp Require Import gmap strings list fin_maps pretty.

Open Scope string_scope.
Open Scope Z_scope.

(** ** Python values found in option dictionaries *)

(** Option dictionaries hold YAML scalars, the (x, y) pairs PIL uses for
    [dpi] and sampling, and the EXIF mapping (tag to value). *)
Inductive value : Type :=
| VNone
| VBool (b : bool)
| VInt (n : Z)
| VStr (s : string)
| VTuple (a b : Z)
| VExif (tags : list (Z * Z)).

#[global] Instance value_eq_dec : EqDecision value.
Proof. solve_decision. Defined.

(** Python truthiness, as used by [if x] and [x and y]. *)
Definition truthy (v : value) : bool :=
  match v with
  | VNone => false
  | VBool b => b
  | VInt n => negb (Z.eqb n 0)
  | VStr s => negb (String.eqb s EmptyString)
  | VTuple _ _ => true
  | VExif tags => match tags with [] => false | _ => true end
  end.

(** A [dict] with string keys; equality of dicts ignores insertion order. *)
Abbreviation dict := (gmap string value).

(** [d.get(k, False)] followed by a truth test. *)
Definition get_flag (d : dict) (k : string) : bool :=
  match d !! k with Some v => truthy v | None => false end.

(** ** utils.py *)

Module Utils.

(** [if k in d: del d[k]] on the value of a dictionary. *)
Definition del_if_in (k : string) (d : dict) : dict :=
  if decide (is_Some (d !! k)) then delete k d else d.

(** [remove_superficial_options], on dictionary values: the copy is the
    value itself, every guarded [del] removes one key. *)
Definition remove_superficial_options (options : dict) : dict :=
  let cleaned_options := options in
  let cleaned_options := del_if_in "name" cleaned_options in
  let cleaned_options := del_if_in "exif" cleaned_options in
  let cleaned_options := del_if_in "text" cleaned_options in
  let cleaned_options := del_if_in "type" cleaned_options in
  let cleaned_options := del_if_in "size" cleaned_options in
  let cleaned_options := del_if_in "float" cleaned_options in
  let cleaned_options := del_if_in "resize" cleaned_options in
  cleaned_options.

(** The keys the function deletes, in the order of its [del] statements. *)
Definition superficial : list string :=
  ["name"; "exif"; "text"; "type"; "size"; "float"; "resize"].

(** The superficial keys as the specification enumerates them: display
    label, EXIF excerpt, caption text, declared media type, declared
    on-page size and resize hint. *)
Definition spec_superficial : list string :=
  ["name"; "exif"; "text"; "type"; "size"; "resize"].

(** *** Dictionaries as heap objects

    Python passes dictionaries by reference.  To speak about what the call
    does to its argument, dictionaries live in a store of objects and the
    function receives and returns addresses. *)

Abbreviation heap := (gmap positive dict).

(** [d.copy()]: a new object with the same items. *)
Definition dict_copy (l : positive) (h : heap) : option (positive * heap) :=
  match h !! l with
  | Some d => let c := fresh (dom h) in Some (c, <[c := d]> h)
  | None => None
  end.

(** [if k in d: del d[k]], mutating the object at [l]. *)
Definition dict_del_if_in (k : string) (l : positive) (h : heap) : heap :=
  match h !! l with
  | Some d => if decide (is_Some (d !! k)) then <[l := delete k d]> h else h
  | None => h
  end.

(** [remove_superficial_options] on the store: [None] when the argument is
    not an allocated dictionary. *)
Definition remove_superficial_options_ref (options : positive) (h : heap)
  : option (positive * heap) :=
  match dict_copy options h with
  | Some (cleaned_options, h) =>
      let h := dict_del_if_in "name" cleaned_options h in
      let h := dict_del_if_in "exif" cleaned_options h in
      let h := dict_del_if_in "text" cleaned_options h in
      let h := dict_del_if_in "type" cleaned_options h in
      let h := dict_del_if_in "size" cleaned_options h in
      let h := dict_del_if_in "float" cleaned_options h in
      let h := dict_del_if_in "resize" cleaned_options h in
      Some (cleaned_options, h)
  | None => None
  end.

End Utils.

(** ** The world the workers act on *)

Abbreviation path := string.

(** [Path("build") / p]: [os.path.join], which keeps an absolute [p]. *)
Definition build_path (p : path) : path :=
  if String.prefix "/" p then p else "build/" +:+ p.

(** What PIL exposes of a decoded image. *)
Record image : Type := Image {
  format : string;
  im_size : Z * Z;
  info : dict;
  getexif : list (Z * Z);
  get_sampling : Z
}.

#[global] Instance image_eq_dec : EqDecision image.
Proof. solve_decision. Defined.

(** A file on disk: its modification time and, for a file PIL can decode,
    the image it holds. *)
Record file : Type := File {
  mtime : Z;
  content : option image
}.

Inductive exn : Type :=
| OSError
| TypeError
| StructError
| KeyError
| ValueError
| ZeroDivisionError
| KeyboardInterrupt
| Deadlock.   (* not an exception: a process waiting forever *)

#[global] Instance exn_eq_dec : EqDecision exn.
Proof. solve_decision. Defined.

Inductive level : Type := DEBUG | INFO | WARNING | ERROR.

#[global] Instance level_eq_dec : EqDecision level.
Proof. solve_decision. Defined.

(** [Image.FLIP_LEFT_RIGHT] and its siblings. *)
Inductive transpose_method : Type :=
| FLIP_LEFT_RIGHT | ROTATE_180 | FLIP_TOP_BOTTOM | TRANSPOSE
| ROTATE_270 | TRANSVERSE | ROTATE_90.

(** ** The cache store *)

Module Cache.

(** Modelled from the spec: [recitale/cache.py] is not among the sources.
    A fingerprint is the source modification time, the effective options
    after superficial-key stripping, and the state of the derived path. *)
Record fingerprint : Type := Fingerprint {
  fp_source : option Z;
  fp_options : dict;
  fp_derived : option Z
}.

#[global] Instance fingerprint_eq_dec : EqDecision fingerprint.
Proof. solve_decision. Defined.

Abbreviation store := (gmap (path * path) fingerprint).

Definition stat (fs : gmap path file) (p : path) : option Z :=
  mtime <$> fs !! p.

(** Modelled from the spec: [fingerprint(sourcePath, optionsSet,
    derivedPath)], a stat of both paths and the stripped options. *)
Definition fingerprint_of (fs : gmap path file) (src dst : path)
    (options : dict) : fingerprint :=
  {| fp_source := stat fs src;
     fp_options := Utils.remove_superficial_options options;
     fp_derived := stat fs dst |}.

(** Modelled from the spec: [needsRegeneration] is true if no entry exists
    for the key, or the stored fingerprint differs from the fresh one, or
    the derived path is absent. *)
Definition needs_to_be_generated (fs : gmap path file) (c : store)
    (src dst : path) (options : dict) : bool :=
  match c !! (src, dst) with
  | None => true
  | Some fp =>
      negb (bool_decide (fp = fingerprint_of fs src dst options))
      || negb (bool_decide (is_Some (stat fs dst)))
  end.

(** Modelled from the spec: [record] computes the fresh fingerprint and
    stores or overwrites the entry. *)
Definition cache_picture (fs : gmap path file) (c : store)
    (src dst : path) (options : dict) : store :=
  <[(src, dst) := fingerprint_of fs src dst options]> c.

End Cache.

(** ** Observable actions *)

Inductive event : Type :=
| EOpen (p : path)                            (* Image.open *)
| ECheck (src dst : path) (dirty : bool)      (* CACHE.needs_to_be_generated *)
| ECopy                                       (* img.copy() *)
| EThumbnail (size : Z * Z)                   (* im.thumbnail *)
| ESave (dst : path) (im : image) (params : dict) (r : option exn)
| ERecord (src dst : path)                    (* CACHE.cache_picture *)
| ELog (l : level) (msg : string) (args : list string)
| EPut (item : option Z)                      (* queue.put *)
| ERun (command : string) (returncode : Z)    (* subprocess.run *)
| EUpdate                                     (* pbar.update() *)
| EClose                                      (* the progress bar is released *)
| EDump.                                      (* CACHE.cache_dump *)

#[global] Instance event_eq_dec : EqDecision event.
Proof. solve_decision. Defined.

(** The state shared by the coordinator and its workers.  [trace] lists
    the actions performed so far, latest first; [calls] counts the calls
    made to the encoder and to external processes. *)
Record world : Type := World {
  fs : gmap path file;
  cache : Cache.store;
  MAXBLOCK : Z;
  queue : list (option Z);
  clock : Z;
  calls : nat;
  trace : list event
}.

(** Library and operating-system behaviour the program relies on.  Every
    call may fail or be interrupted; [ext_save] and [ext_run] may depend on how
    many calls came before, and [ext_run] tells the exit status of the
    process and the files it wrote.  [ext_copy] tells what [img.copy()]
    raises, if anything; [ext_processes] is the number of worker processes
    of the pool. *)
Record externals : Type := Externals {
  ext_processes : positive;
  ext_save : nat → Z → image → path → dict → option exn;
  ext_copy : image → option exn;
  ext_thumbnail : Z * Z → image → exn + image;
  ext_exif_transpose : image → exn + image;
  ext_transpose : option transpose_method → image → exn + image;
  ext_run : nat → string → exn + Z * list path;
  ext_quote : string → string;
  ext_format : string → dict → exn + string
}.

(** ** Computations that act on the world and may raise *)

Inductive result (A : Type) : Type :=
| Ok (a : A)
| Raise (e : exn).
Arguments Ok {A} a.
Arguments Raise {A} e.

Definition M (A : Type) : Type := world → result A * world.

Definition ret {A} (a : A) : M A := λ w, (Ok a, w).

Definition bind {A B} (m : M A) (k : A → M B) : M B :=
  λ w, match m w with
       | (Ok a, w') => k a w'
       | (Raise e, w') => (Raise e, w')
       end.

Definition raise {A} (e : exn) : M A := λ w, (Raise e, w).

(** [try: body finally: final]. *)
Definition try_finally {A} (body : M A) (final : M unit) : M A :=
  λ w, match body w with
       | (r, w') =>
           match final w' with
           | (Ok _, w'') => (r, w'')
           | (Raise e, w'') => (Raise e, w'')
           end
       end.

(** [try: body except ...: handler], where [handler e] is [None] for an
    exception no clause matches. *)
Definition try_except {A} (body : M A) (handler : exn → option (M A)) : M A :=
  λ w, match body w with
       | (Ok a, w') => (Ok a, w')
       | (Raise e, w') =>
           match handler e with
           | Some h => h w'
           | None => (Raise e, w')
           end
       end.

Notation "'let*' x ':=' m 'in' k" := (bind m (λ x, k))
  (at level 10, x name, m at level 100, k at level 200, only parsing).
Notation "'let*' ' p ':=' m 'in' k" :=
  (bind m (λ x, match x with p => k end))
  (at level 10, p pattern, m at level 100, k at level 200, only parsing).
Notation "'do' m 'then' k" := (bind m (λ _, k))
  (at level 10, m at level 100, k at level 200, only parsing).

Definition emit (e : event) : M unit :=
  λ w, (Ok tt, World (fs w) (cache w) (MAXBLOCK w) (queue w) (clock w)
                     (calls w) (e :: trace w)).

Definition log (l : level) (msg : string) (args : list string) : M unit :=
  emit (ELog l msg args).

(** How a loop body ends: the next iteration, or a [return] from the
    enclosing function. *)
Inductive ctl (R : Type) : Type :=
| Next
| Return (r : R).
Arguments Next {R}.
Arguments Return {R} r.

(** [for x in xs: body], with the variables the body assigns threaded
    through as [s]. *)
Fixpoint for_in {X S R} (xs : list X) (s : S) (body : X → S → M (ctl R * S))
  : M (ctl R * S) :=
  match xs with
  | [] => ret (Next, s)
  | x :: xs =>
      let* r := body x s in
      match r with
      | (Next, s') => for_in xs s' body
      | (Return r, s') => ret (Return r, s')
      end
  end.

(** ** Assets and their variants *)

(** Modelled from the spec: [recitale/image.py], [video.py] and [audio.py]
    are not among the sources.  A variant has a destination path and a
    target size whose width or height may be unset. *)
Module Thumbnail.
Record t : Type := Make {
  filepath : path;
  size : option Z * option Z
}.
End Thumbnail.

(** Modelled from the spec: a base asset is a source path, its options and
    its named variants; the dictionaries of variants keep insertion order. *)
Module Base.
Record t : Type := Make {
  filepath : path;
  options : dict;
  thumbnails : list (string * Thumbnail.t);
  reencodes : list (string * Thumbnail.t)
}.
End Base.

(** [d.values()]. *)
Definition values {K V} (d : list (K * V)) : list V := d.*2.

(** Truth of a width or height: [None] and [0] are false. *)
Definition dim_truthy (d : option Z) : bool :=
  match d with Some n => negb (Z.eqb n 0) | None => false end.

(** ** recitale.py: the workers *)

Section Workers.
Context (E : externals).

Definition lift {A} (r : exn + A) : M A :=
  match r with inl e => raise e | inr a => ret a end.

(** [Image.open]: fails on a missing or undecodable file. *)
Definition Image_open (p : path) : M image :=
  λ w, match fs w !! p with
       | Some (File _ (Some img)) => (do emit (EOpen p) then ret img) w
       | _ => (Raise OSError, w)
       end.

Definition needs_to_be_generated (src dst : path) (options : dict) : M bool :=
  λ w, let dirty := Cache.needs_to_be_generated (fs w) (cache w) src dst options in
       (do emit (ECheck src dst dirty) then ret dirty) w.

Definition cache_picture (src dst : path) (options : dict) : M unit :=
  λ w, (Ok tt,
        World (fs w) (Cache.cache_picture (fs w) (cache w) src dst options)
              (MAXBLOCK w) (queue w) (clock w) (calls w)
              (ERecord src dst :: trace w)).

Definition queue_put (item : option Z) : M unit :=
  λ w, (Ok tt,
        World (fs w) (cache w) (MAXBLOCK w) (queue w ++ [item]) (clock w)
              (calls w) (EPut item :: trace w)).

(** [im.save] with the parameters: on success the file is written. *)
Definition im_save (im : image) (filepath : path) (params : dict) : M unit :=
  λ w, match ext_save E (calls w) (MAXBLOCK w) im filepath params with
       | None =>
           (Ok tt,
            World (<[filepath := File (clock w) (Some im)]> (fs w)) (cache w)
                  (MAXBLOCK w) (queue w) (clock w + 1) (S (calls w))
                  (ESave filepath im params None :: trace w))
       | Some e =>
           (Raise e,
            World (fs w) (cache w) (MAXBLOCK w) (queue w) (clock w)
                  (S (calls w)) (ESave filepath im params (Some e) :: trace w))
       end.

Definition get_MAXBLOCK : M Z := λ w, (Ok (MAXBLOCK w), w).

Definition set_MAXBLOCK (n : Z) : M unit :=
  λ w, (Ok tt,
        World (fs w) (cache w) n (queue w) (clock w) (calls w) (trace w)).

(** [subprocess.run(shlex.split(command)).returncode]; the external
    process may write files. *)
Definition subprocess_run (command : string) : M Z :=
  λ w, match ext_run E (calls w) command with
       | inl e =>
           (Raise e,
            World (fs w) (cache w) (MAXBLOCK w) (queue w) (clock w)
                  (S (calls w)) (trace w))
       | inr (returncode, written) =>
           (Ok returncode,
            World (foldr (λ p, <[p := File (clock w) None]>) (fs w) written)
                  (cache w) (MAXBLOCK w) (queue w) (clock w + 1) (S (calls w))
                  (ERun command returncode :: trace w))
       end.

(** [del d[k]]. *)
Definition del_key (k : string) (d : dict) : M dict :=
  match d !! k with
  | Some _ => ret (delete k d)
  | None => raise KeyError
  end.

(** [if k in src: dst[k] = src[k]]. *)
Definition copy_key (k : string) (src dst : dict) : dict :=
  match src !! k with
  | Some v => <[k := v]> dst
  | None => dst
  end.

Definition image_params (img : image) (options : dict) : dict :=
  let format := format img in
  let params : dict := {[ "format" := VStr format ]} in
  let params := copy_key "progressive" options params in
  let params := copy_key "quality" options params in
  let params := copy_key "dpi" (info img) params in
  let params :=
    if bool_decide (format = "JPEG") || bool_decide (format = "MPO")
    then <["subsampling" := VInt (get_sampling img)]> params
    else params in
  let exif := getexif img in
  let params :=
    if truthy (VExif exif) then <["exif" := VExif exif]> params else params in
  params.

(** The test [params.get("exif") and base.options.get("strip", False)]
    and the deletion it guards. *)
Definition strip_exif (params options : dict) : M dict :=
  if get_flag params "exif" && get_flag options "strip"
  then del_key "exif" params
  else ret params.

(** Lines 482-487: the body of the loop over the thumbnails. *)
Definition check_thumbnail (base : Base.t) (params : dict)
    (thumbnail : Thumbnail.t) (_ : unit) : M (ctl (option Base.t) * unit) :=
  let filepath := build_path (Thumbnail.filepath thumbnail) in
  let* dirty := needs_to_be_generated (Base.filepath base) filepath params in
  if dirty then
    do queue_put (Some 1) then
    ret (Return (Some base), tt)
  else ret (Next, tt).

Definition noncached_images (base : Base.t) : M (option Base.t) :=
  let* img := Image_open (Base.filepath base) in
  let params := image_params img (Base.options base) in
  let* params := strip_exif params (Base.options base) in
  let* r :=
    for_in (values (Base.thumbnails base)) tt (check_thumbnail base params) in
  match r with
  | (Return r, _) => ret r
  | (Next, _) =>
      do queue_put (Some 1) then
      ret None
  end.

(** [exif.get(tag)] on the EXIF mapping. *)
Definition exif_get (exif : list (Z * Z)) (tag : Z) : option Z :=
  (list_find (λ kv, kv.1 = tag) exif) ≫= (λ r, Some r.2.2).

Definition orientation_method (orientation : option Z) : option transpose_method :=
  match orientation with
  | Some 2 => Some FLIP_LEFT_RIGHT
  | Some 3 => Some ROTATE_180
  | Some 4 => Some FLIP_TOP_BOTTOM
  | Some 5 => Some TRANSPOSE
  | Some 6 => Some ROTATE_270
  | Some 7 => Some TRANSVERSE
  | Some 8 => Some ROTATE_90
  | _ => None
  end.

(** Lines 498-536: re-orient the image when its EXIF orientation tag
    (0x0112) says it is not upright. *)
Definition reorient (base : Base.t) (img : image) (params : dict)
  : M (image * dict) :=
  let exif := match params !! "exif" with Some (VExif t) => t | _ => [] end in
  if get_flag params "exif"
     && get_flag (Base.options base) "auto-orient"
     && negb (bool_decide (default 1 (exif_get exif 274) = 1))
  then
    let orientation := exif_get exif 274 in
    do log DEBUG "Orientation EXIF tag set: rotating thumbnails"
           [Base.filepath base] then
    try_except
      (let* img := lift (ext_exif_transpose E img) in ret (img, params))
      (λ e,
        match e with
        | TypeError | StructError => Some (
            let method := orientation_method orientation in
            let* img := lift (ext_transpose E method img) in
            if negb (get_flag (Base.options base) "strip") then
              do log WARNING "Original image contains EXIF metadata that Pillow cannot handle"
                     [Base.filepath base] then
              let* params := del_key "exif" params in
              ret (img, params)
            else ret (img, params))
        | _ => None
        end)
  else ret (img, params).

(** [4 * width * height]; a missing factor is a [TypeError]. *)
Definition area4 (width height : option Z) : M Z :=
  match width, height with
  | Some width, Some height => ret (4 * width * height)
  | _, _ => raise TypeError
  end.

(** The length of [im.info]'s ICC profile, 0 when there is none; [None]
    for a value that has no length. *)
Definition icc_len (im : image) : option Z :=
  match info im !! "icc_profile" with
  | None => Some 0
  | Some (VStr s) => Some (Z.of_nat (String.length s))
  | Some (VExif t) => Some (Z.of_nat (length t))
  | Some (VTuple _ _) => Some 2
  | Some _ => None
  end.

Definition icc_profile_len (im : image) : M Z :=
  match icc_len im with
  | Some n => ret n
  | None => raise TypeError
  end.

Definition IGNORE_DIM : Z := 65596.

(** Lines 542-612: the body of the loop over the thumbnails; [params] is
    the variable the body may reassign.  [img.copy()] and [im.thumbnail]
    are outside the [try]: what they raise leaves the worker. *)
Definition render_thumbnail (base : Base.t) (img : image)
    (thumbnail : Thumbnail.t) (params : dict) : M (ctl unit * dict) :=
  let filepath := build_path (Thumbnail.filepath thumbnail) in
  let* dirty := needs_to_be_generated (Base.filepath base) filepath params in
  if negb dirty then ret (Next, params) else
  do emit ECopy then
  let* im :=
    match ext_copy E img with Some e => raise e | None => ret img end in
  let '(width, height) := Thumbnail.size thumbnail in
  let* '(width, height, im) :=
    if negb (dim_truthy width) || negb (dim_truthy height) then
      let height := default IGNORE_DIM height in
      let width := default IGNORE_DIM width in
      do emit (EThumbnail (width, height)) then
      let* im := lift (ext_thumbnail E (width, height) im) in
      ret (Some width, Some height, im)
    else ret (width, height, im) in
  do log DEBUG "Creating thumbnail" [Base.filepath base; filepath] then
  let* params :=
    try_except
      (do im_save im filepath params then ret params)
      (λ e,
        match e with
        | OSError => Some (
            do log WARNING "Failed to save. As a work-around, increase buffer size."
                   [Base.filepath base; filepath; Base.filepath base] then
            let '(width, height) :=
              if dim_truthy width && dim_truthy height then (width, height)
              else Thumbnail.size thumbnail in
            let* old := get_MAXBLOCK in
            let* area := area4 width height in
            let* icc := icc_profile_len im in
            do set_MAXBLOCK (Z.max old (area + icc + 10)) then
            do im_save im filepath params then
            ret params)
        | TypeError => Some (
            do log WARNING "Original image contains EXIF metadata that Pillow < 7.2.0 cannot handle."
                   [Base.filepath base] then
            let* params := del_key "exif" params in
            do im_save im filepath params then
            ret params)
        | _ => None
        end) in
  do log DEBUG "Done creating thumbnail" [Base.filepath base; filepath] then
  do cache_picture (Base.filepath base) filepath params then
  ret (Next, params).

(** Lines 493-539: open the source, derive the save parameters and
    re-orient the image. *)
Definition prepare (base : Base.t) : M (image * dict) :=
  do log DEBUG "Rendering thumbnails" [Base.filepath base] then
  let* img := Image_open (Base.filepath base) in
  let params := image_params img (Base.options base) in
  let* '(img, params) := reorient base img params in
  let* params := strip_exif params (Base.options base) in
  ret (img, params).

Definition render_thumbnails (base : Base.t) : M unit :=
  let* '(img, params) := prepare base in
  let* _ :=
    for_in (values (Base.thumbnails base)) params (render_thumbnail base img) in
  queue_put (Some 1).

(** [width if width else -1]. *)
Definition dim_or_minus_one (d : option Z) : Z :=
  match d with
  | Some n => if dim_truthy d then n else -1
  | None => -1
  end.

(** [str(n)] for an integer. *)
Definition str (n : Z) : string := pretty n.

(** [command.format] with the options, [subprocess.run], and the test
    [returncode != 0]. *)
Definition command_fails (command : string) (options : dict) : M bool :=
  let* command := lift (ext_format E command options) in
  let* returncode := subprocess_run command in
  ret (negb (Z.eqb returncode 0)).

(** Lines 626-654: the body of the loop over the re-encodes of a video. *)
Definition reencode_video (base : Base.t) (reencodecmd : string)
    (reencode : Thumbnail.t) (_ : option path) : M (ctl unit * option path) :=
  do log INFO "Reencoding" [Base.filepath base] then
  let filepath := build_path (Thumbnail.filepath reencode) in
  let* dirty :=
    needs_to_be_generated (Base.filepath base) filepath (Base.options base) in
  if negb dirty then ret (Next, Some filepath) else
  let '(width, height) := Thumbnail.size reencode in
  let width := dim_or_minus_one width in
  let height := dim_or_minus_one height in
  let command :=
    reencodecmd +:+ "-s " +:+ str width +:+ "x" +:+ str height +:+ " "
    +:+ ext_quote E filepath in
  let* failed := command_fails command (Base.options base) in
  if failed then
    do log ERROR "An error occured while rendering reencodes"
           [Base.filepath base] then
    ret (Return tt, Some filepath)
  else
    do cache_picture (Base.filepath base) filepath (Base.options base) then
    ret (Next, Some filepath).

(** Lines 661-678: the body of the loop that collects the thumbnails of a
    video still to be made.  The variables it assigns are [filepath],
    [command] and [uncached]. *)
Definition collect_thumbnail (base : Base.t) (thumbnail : Thumbnail.t)
    (s : option path * string * list Thumbnail.t)
  : M (ctl unit * (option path * string * list Thumbnail.t)) :=
  let '(_, command, uncached) := s in
  let filepath := build_path (Thumbnail.filepath thumbnail) in
  let* dirty :=
    needs_to_be_generated (Base.filepath base) filepath (Base.options base) in
  if negb dirty then ret (Next, (Some filepath, command, uncached)) else
  let '(width, height) := Thumbnail.size thumbnail in
  let width := dim_or_minus_one width in
  let height := dim_or_minus_one height in
  let command :=
    command +:+ " -frames:v 1 -vf scale=" +:+ str width +:+ ":" +:+ str height
    +:+ " " +:+ ext_quote E filepath in
  ret (Next, (Some filepath, command, (uncached ++ [thumbnail])%list)).

Definition render_video (base : Base.t) : M unit :=
  do log DEBUG "Rendering thumbnails and reencodes" [Base.filepath base] then
  let basecmd :=
    "{binary} -loglevel {loglevel} -y -i " +:+ ext_quote E (Base.filepath base) in
  let* r :=
    match Base.reencodes base with
    | [] => ret (Next, None)
    | _ :: _ =>
        let reencodecmd :=
          basecmd
          +:+ " -stats -c:v {video} -b:v {vbitrate} {other} -c:a {audio} -b:a {abitrate} "
          +:+ "-f {format} " in
        for_in (values (Base.reencodes base)) None (reencode_video base reencodecmd)
    end in
  match r with
  | (Return _, _) => ret tt
  | (Next, filepath) =>
      match Base.thumbnails base with
      | [] => ret tt
      | _ :: _ =>
          let uncached : list Thumbnail.t := [] in
          let command := EmptyString in
          let* '(_, (filepath, command, uncached)) :=
            for_in (values (Base.thumbnails base)) (filepath, command, uncached)
                   (collect_thumbnail base) in
          match uncached with
          | [] => ret tt
          | _ :: _ =>
              let command := basecmd +:+ command in
              let* failed := command_fails command (Base.options base) in
              if failed then
                log ERROR "An error occured while rendering thumbnails"
                    [Base.filepath base]
              else
                let* _ :=
                  for_in uncached tt (λ thumbnail _,
                    match filepath with
                    | Some filepath =>
                        do cache_picture (Base.filepath base) filepath
                                         (Base.options base) then
                        ret (@Next unit, tt)
                    | None => raise ValueError
                    end) in
                ret tt
          end
      end
  end.

Definition reencode_audio (base : Base.t) : M unit :=
  do log DEBUG "Rendering reencodes" [Base.filepath base] then
  let basecmd :=
    "{binary} -loglevel {loglevel} -stats -i " +:+ ext_quote E (Base.filepath base) in
  let basecmd := basecmd +:+ " -c:a {audio} -y " in
  match Base.reencodes base with
  | [] => ret tt
  | _ :: _ =>
      let* _ :=
        for_in (values (Base.reencodes base)) tt (λ reencode _,
          do log INFO "Reencoding" [Base.filepath base] then
          let filepath := build_path (Thumbnail.filepath reencode) in
          let* dirty :=
            needs_to_be_generated (Base.filepath base) filepath
                                  (Base.options base) in
          if negb dirty then
            do log INFO "Skipped: already generated"
                   [Thumbnail.filepath reencode] then
            ret (Return tt, tt)
          else
            let command := basecmd +:+ ext_quote E filepath in
            let* failed := command_fails command (Base.options base) in
            if failed then
              do log ERROR "An error occured while rendering reencodes"
                     [Base.filepath base] then
              ret (Return tt, tt)
            else
              do cache_picture (Base.filepath base) filepath
                               (Base.options base) then
              ret (Next, tt)) in
      ret tt
  end.

(** ** recitale.py: the coordinator *)

(** Truth of an item read from the queue: [None] and [0] are false. *)
Definition item_truthy (item : option Z) : bool :=
  match item with Some n => negb (Z.eqb n 0) | None => false end.

(** [while queue.get(): pbar.update()] on the items the queue will
    deliver: the number of updates and the items left, or [None] when the
    consumer is left waiting on an empty queue. *)
Fixpoint consume (q : list (option Z)) : option (nat * list (option Z)) :=
  match q with
  | [] => None
  | item :: q =>
      if item_truthy item
      then (λ r : nat * list (option Z), (S r.1, r.2)) <$> consume q
      else Some (0%nat, q)
  end.

(** [handle_pbar], run to its end: the process is started before the
    workers and joined after them, and reads what they and the dispatcher
    put on the queue. *)
Definition handle_pbar : M unit :=
  λ w, match consume (queue w) with
       | Some (n, rest) =>
           (Ok tt,
            World (fs w) (cache w) (MAXBLOCK w) rest (clock w) (calls w)
                  (EClose :: replicate n EUpdate ++ trace w))
       | None =>
           (Raise Deadlock,
            World (fs w) (cache w) (MAXBLOCK w) [] (clock w) (calls w)
                  (replicate (length (queue w)) EUpdate ++ trace w))
       end.

(** [mapstar]: one task of the pool, [list(map(f, chunk))]; the calls of
    a chunk run in order and the first that raises ends the chunk. *)
Fixpoint mapstar {A B} (f : A → M B) (xs : list A) : M (list B) :=
  match xs with
  | [] => ret []
  | x :: xs =>
      let* y := f x in
      let* ys := mapstar f xs in
      ret (y :: ys)
  end.

(** The size of the chunks [Pool.map] cuts its input into:
    [divmod(len(iterable), len(pool) * 4)], rounded up. *)
Definition chunksize (n : nat) : nat :=
  let d := (Pos.to_nat (ext_processes E) * 4)%nat in
  if (n mod d =? 0)%nat then (n / d)%nat else S (n / d).

(** [Pool._get_tasks]: slices of [size] items until a slice is empty;
    [fuel] bounds the number of slices, one per item at most. *)
Fixpoint get_tasks {A} (size fuel : nat) (xs : list A) : list (list A) :=
  match fuel with
  | O => []
  | S fuel =>
      match take size xs with
      | [] => []
      | chunk => chunk :: get_tasks size fuel (drop size xs)
      end
  end.

(** The worker process runs a task and reports its result or what it
    raised; it goes on with the next task either way. *)
Definition worker_task {A B} (f : A → M B) (chunk : list A)
  : M (exn + list B) :=
  λ w, match mapstar f chunk w with
       | (Ok ys, w') => (Ok (inr ys), w')
       | (Raise e, w') => (Ok (inl e), w')
       end.

Fixpoint run_tasks {A B} (f : A → M B) (tasks : list (list A))
  : M (list (exn + list B)) :=
  match tasks with
  | [] => ret []
  | chunk :: tasks =>
      let* r := worker_task f chunk in
      let* rs := run_tasks f tasks in
      ret (r :: rs)
  end.

(** [MapResult]: once every task has reported, the first exception
    reported, or else the results in order. *)
Fixpoint map_result {B} (rs : list (exn + list B)) : exn + list B :=
  match rs with
  | [] => inr []
  | inl e :: _ => inl e
  | inr ys :: rs =>
      match map_result rs with
      | inl e => inl e
      | inr zs => inr (ys ++ zs)%list
      end
  end.

(** [pool.map(f, xs)]: the input is cut into chunks, every chunk is run,
    and then the results are returned in order, or the exception of the
    first chunk that raised is raised again.  The workers are modelled as
    one process running the chunks in order on the shared store. *)
Definition pool_map {A B} (f : A → M B) (xs : list A) : M (list B) :=
  let tasks := get_tasks (chunksize (length xs)) (length xs) xs in
  let* rs := run_tasks f tasks in
  lift (map_result rs).

(** [for x in xs: f(x)]. *)
Fixpoint for_each {A} (f : A → M unit) (xs : list A) : M unit :=
  match xs with
  | [] => ret tt
  | x :: xs => do f x then for_each f xs
  end.

(** One phase of the pool: the progress process is started, the workers
    run, the dispatcher puts the end-of-stream item and joins the progress
    process. *)
Definition phase {A B} (f : A → M B) (xs : list A) : M (list B) :=
  let* ys := pool_map f xs in
  do queue_put None then
  do handle_pbar then
  ret ys.

(** [Manager().Queue()]. *)
Definition new_queue : M unit :=
  λ w, (Ok tt,
        World (fs w) (cache w) (MAXBLOCK w) [] (clock w) (calls w) (trace w)).

Definition cache_dump : M unit := emit EDump.

(** Lines 870-947 of [main]: the rendering pipeline, given the registries
    of images, videos and audios. *)
Definition main (base_imgs base_vids base_audios : list (path * Base.t))
  : M unit :=
  try_finally
    (do new_queue then
     do log INFO "Generating list of thumbnails to create..." [] then
     let* base_imgs := phase noncached_images (values base_imgs) in
     let base_imgs := omap id base_imgs in
     do match base_imgs with
        | [] => ret tt
        | _ :: _ =>
            do log INFO "Generating thumbnails..." [] then
            let* _ := phase render_thumbnails base_imgs in
            ret tt
        end then
     do match base_vids with
        | [] => ret tt
        | _ :: _ =>
            for_each render_video (values base_vids)
        end then
     match base_audios with
     | [] => ret tt
     | _ :: _ =>
         for_each reencode_audio (values base_audios)
     end)
    cache_dump.

End Workers.

(** ** Vocabulary of the properties *)

(** Whatever its outcome, [m] takes a world to one related by [R]. *)
Definition preserves {A} (R : relation world) (m : M A) : Prop :=
  ∀ w, R w (m w).2.

(** The later world has more actions in its trace, all satisfying [P]. *)
Definition extends (P : event → Prop) : relation world :=
  λ w w', ∃ evs, trace w' = (evs ++ trace w)%list ∧ Forall P evs.

Definition not_dump (e : event) : Prop := e ≠ EDump.

(** The actions of rendering proper: everything but queue traffic, the
    progress bar and the final dump. *)
Definition is_work (e : event) : Prop :=
  match e with
  | EPut _ | EUpdate | EClose | EDump => False
  | _ => True
  end.

(** The later world is reached by rendering actions only, and the queue
    is as it was. *)
Definition works : relation world :=
  λ w w', queue w' = queue w ∧ extends is_work w w'.

(** The number of progress units among some actions. *)
Definition units (evs : list event) : nat :=
  length (filter (λ e, e = EPut (Some 1)) evs).

Definition work_or_unit (e : event) : Prop := is_work e ∨ e = EPut (Some 1).

(** The later world is reached by rendering actions and by putting [n]
    units on the queue, and nothing else. *)
Definition progress (n : nat) : relation world :=
  λ w w', queue w' = (queue w ++ replicate n (Some 1))%list
          ∧ ∃ evs, trace w' = (evs ++ trace w)%list
                   ∧ Forall work_or_unit evs ∧ units evs = n.

(** A worker that puts exactly one unit on the queue, as its last
    action, when it returns, and none when it raises. *)
Definition one_unit {B} (m : M B) : Prop :=
  ∀ w, match m w with
       | (Ok _, w') => progress 1 w w' ∧ head (trace w') = Some (EPut (Some 1))
       | (Raise _, w') => progress 0 w w'
       end.

(** What a phase of the pool shows of itself when it starts from an empty
    queue.  If every worker returns, the workers have put one unit per
    item, the dispatcher has then put the end-of-stream item, and the
    consumer has updated the bar once per item and closed it.  If a
    worker raises, neither the end-of-stream item nor the closing of the
    bar happens. *)
Definition phase_signals {A B} (E : externals) (f : A → M B) (xs : list A)
    (w : world) : Prop :=
  match phase E f xs w with
  | (Ok ys, w') =>
      length ys = length xs ∧ queue w' = []
      ∧ ∃ evs, trace w'
               = (EClose :: replicate (length xs) EUpdate
                  ++ EPut None :: evs ++ trace w)%list
               ∧ Forall work_or_unit evs ∧ units evs = length xs
  | (Raise _, w') => ∃ n, (n < length xs)%nat ∧ progress n w w'
  end.

(** The parameters the scan and the render phase hand to the cache: those
    of [image_params], without the EXIF data when stripping is asked. *)
Definition cache_params (img : image) (options : dict) : dict :=
  let params := image_params img options in
  if get_flag params "exif" && get_flag options "strip"
  then delete "exif" params
  else params.

(** The elements of a list up to and including the first that
    satisfies [P]. *)
Fixpoint upto_first {A} (P : A → bool) (l : list A) : list A :=
  match l with
  | [] => []
  | x :: l => if P x then [x] else x :: upto_first P l
  end.

(** Files and cache are as they were. *)
Definition keeps_store : relation world :=
  λ w w', fs w' = fs w ∧ cache w' = cache w.

(** ** What the render loop does to one variant *)

(** The box handed to [im.thumbnail]: an unset dimension is replaced by
    [IGNORE_DIM]. *)
Definition box (size : option Z * option Z) : Z * Z :=
  (default IGNORE_DIM size.1, default IGNORE_DIM size.2).

(** The test [not width or not height]. *)
Definition resizes (size : option Z * option Z) : bool :=
  negb (dim_truthy size.1) || negb (dim_truthy size.2).

(** The image the loop body hands to [im.save], or what [im.thumbnail]
    raises. *)
Definition resized (E : externals) (size : option Z * option Z) (img : image)
  : exn + image :=
  if resizes size then ext_thumbnail E (box size) img else inr img.

Definition resize_events (size : option Z * option Z) : list event :=
  if resizes size then [EThumbnail (box size)] else [].

Section Variant.
Context (base : Base.t) (params : dict) (thumbnail : Thumbnail.t).
Context (im : image).

Let src := Base.filepath base.
Let dst := build_path (Thumbnail.filepath thumbnail).

(** The actions up to the first save. *)
Definition attempt_events : list event :=
  (ELog DEBUG "Creating thumbnail" [src; dst]
   :: resize_events (Thumbnail.size thumbnail) ++ [ECopy; ECheck src dst true])%list.


(** The world after a successful save and the record that follows it;
    [evs] are the actions up to and including the save. *)
Definition recorded (mb : Z) (n : nat) (evs : list event) (w : world) : world :=
  let fs' := <[dst := File (clock w) (Some im)]> (fs w) in
  World fs' (Cache.cache_picture fs' (cache w) src dst params) mb (queue w)
        (clock w + 1) n
        (ERecord src dst :: ELog DEBUG "Done creating thumbnail" [src; dst]
         :: evs ++ trace w)%list.



End Variant.



(** The destinations written by some actions. *)
Definition saved (evs : list event) : list path :=
  omap (λ e, match e with ESave dst _ _ None => Some dst | _ => None end) evs.

(** The cache keys recorded by some actions, latest first. *)
Definition records (evs : list event) : list (path * path) :=
  omap (λ e, match e with ERecord src dst => Some (src, dst) | _ => None end) evs.

(** The external commands run by some actions, latest first. *)
Definition commands (evs : list event) : list string :=
  omap (λ e, match e with ERun command _ => Some command | _ => None end) evs.

Definition is_resize (e : event) : bool :=
  match e with EThumbnail _ => true | _ => false end.

(** ** Sample inputs *)

Module Samples.

(** [fit] fits the image in the box when both bounds are at least one, as
    PIL does for such a box. *)
Definition fit (box : Z * Z) (im : image) : image :=
  let '(w, h) := im_size im in
  if (w <=? box.1) && (h <=? box.2) then im
  else
    let size :=
      if box.1 * h <=? box.2 * w
      then (box.1, Z.max 1 (box.1 * h / w))
      else (Z.max 1 (box.2 * w / h), box.2) in
    Image (format im) size (info im) (getexif im) (get_sampling im).

(** [im.thumbnail] divides by the bounds of the box: a bound of zero
    raises. *)
Definition pil_thumbnail (box : Z * Z) (im : image) : exn + image :=
  if Z.eqb box.1 0 || Z.eqb box.2 0 then inl ZeroDivisionError
  else inr (fit box im).

(** Libraries that fail on nothing but a box with a zero bound; the pool
    has two processes. *)
Definition reliable : externals :=
  {| ext_processes := 2;
     ext_save := λ _ _ _ _ _, None;
     ext_copy := λ _, None;
     ext_thumbnail := pil_thumbnail;
     ext_exif_transpose := λ im, inr im;
     ext_transpose := λ _ im, inr im;
     ext_run := λ _ _, inr (0, []);
     ext_quote := λ s, s;
     ext_format := λ s _, inr s |}.

(** An encoder whose buffer is too small on its first call only. *)
Definition fails_once : externals :=
  {| ext_processes := 2;
     ext_save := λ n _ _ _ _, if decide (n = 0%nat) then Some OSError else None;
     ext_copy := λ _, None;
     ext_thumbnail := pil_thumbnail;
     ext_exif_transpose := λ im, inr im;
     ext_transpose := λ _ im, inr im;
     ext_run := λ _ _, inr (0, []);
     ext_quote := λ s, s;
     ext_format := λ s _, inr s |}.

(** An encoder whose buffer is too small on its first two calls. *)
Definition fails_twice : externals :=
  {| ext_processes := 2;
     ext_save := λ n _ _ _ _, if decide (n < 2)%nat then Some OSError else None;
     ext_copy := λ _, None;
     ext_thumbnail := pil_thumbnail;
     ext_exif_transpose := λ im, inr im;
     ext_transpose := λ _ im, inr im;
     ext_run := λ _ _, inr (0, []);
     ext_quote := λ s, s;
     ext_format := λ s _, inr s |}.

(** The operator interrupts the first save. *)
Definition interrupted : externals :=
  {| ext_processes := 2;
     ext_save := λ n _ _ _ _,
       if decide (n = 0%nat) then Some KeyboardInterrupt else None;
     ext_copy := λ _, None;
     ext_thumbnail := pil_thumbnail;
     ext_exif_transpose := λ im, inr im;
     ext_transpose := λ _ im, inr im;
     ext_run := λ _ _, inr (0, []);
     ext_quote := λ s, s;
     ext_format := λ s _, inr s |}.

Definition photo : image :=
  {| format := "JPEG"; im_size := (4000, 3000); info := ∅; getexif := [];
     get_sampling := 2 |}.

(** A gallery with two photos, nothing built yet. *)
Definition fresh_world : world :=
  {| fs := {[ "g/a.jpg" := File 10 (Some photo);
              "g/b.jpg" := File 11 (Some photo);
              "g/v.mp4" := File 12 None;
              "g/s.ogg" := File 13 None ]};
     cache := ∅; MAXBLOCK := 65536; queue := []; clock := 100;
     calls := 0; trace := [] |}.

Definition small : Thumbnail.t := Thumbnail.Make "g/a-small.jpg" (Some 800, Some 600).
Definition wide : Thumbnail.t := Thumbnail.Make "g/a-wide.jpg" (Some 1200, None).

Definition photo_a : Base.t :=
  Base.Make "g/a.jpg" {[ "quality" := VInt 75 ]} [("small", small); ("wide", wide)] [].

Definition small_b : Thumbnail.t :=
  Thumbnail.Make "g/b-small.jpg" (Some 800, Some 600).

Definition photo_b : Base.t :=
  Base.Make "g/b.jpg" {[ "quality" := VInt 75 ]} [("small", small_b)] [].

(** The parameters [image_params] derives for both photos. *)
Definition photo_params : dict := cache_params photo {[ "quality" := VInt 75 ]}.

(** [photo_a] with its first variant only, and the world in which that
    variant has been built. *)
Definition photo_a_small : Base.t :=
  Base.Make "g/a.jpg" {[ "quality" := VInt 75 ]} [("small", small)] [].

Definition half_built : world :=
  let w := (render_thumbnails reliable photo_a_small fresh_world).2 in
  World (fs w) (cache w) (MAXBLOCK w) [] (clock w) (calls w) [].

Definition video : Base.t :=
  Base.Make "g/v.mp4" ∅
    [("first", Thumbnail.Make "g/v-first.jpg" (Some 800, None));
     ("last", Thumbnail.Make "g/v-last.jpg" (Some 400, None))] [].

Definition audio : Base.t :=
  Base.Make "g/s.ogg" ∅ []
    [("mp3", Thumbnail.Make "g/s.mp3" (None, None));
     ("ogg", Thumbnail.Make "g/s-low.ogg" (None, None))].

(** An external encoder that exits with status zero after writing
    [outputs]. *)
Definition transcoder (outputs : list path) : externals :=
  {| ext_processes := 2;
     ext_save := λ _ _ _ _ _, None;
     ext_copy := λ _, None;
     ext_thumbnail := pil_thumbnail;
     ext_exif_transpose := λ im, inr im;
     ext_transpose := λ _ im, inr im;
     ext_run := λ _ _, inr (0, outputs);
     ext_quote := λ s, s;
     ext_format := λ s _, inr s |}.

(** [audio] with its first re-encode only, and the world in which that
    re-encode has been made. *)
Definition audio_mp3 : Base.t :=
  Base.Make "g/s.ogg" ∅ [] [("mp3", Thumbnail.Make "g/s.mp3" (None, None))].

Definition audio_half_built : world :=
  let w := (reencode_audio (transcoder ["build/g/s.mp3"]) audio_mp3
                           fresh_world).2 in
  World (fs w) (cache w) (MAXBLOCK w) [] (clock w) (calls w) [].

End Samples.

(** ** Counting actions *)

(** The calls of [im.save] among some actions. *)
Fixpoint n_saves (evs : list event) : nat :=
  match evs with
  | [] => 0
  | ESave _ _ _ _ :: evs => S (n_saves evs)
  | _ :: evs => n_saves evs
  end.

(** The calls of [CACHE.cache_picture]. *)
Fixpoint n_records (evs : list event) : nat :=
  match evs with
  | [] => 0
  | ERecord _ _ :: evs => S (n_records evs)
  | _ :: evs => n_records evs
  end.

(** The external commands run to their end. *)
Fixpoint n_runs (evs : list event) : nat :=
  match evs with
  | [] => 0
  | ERun _ _ :: evs => S (n_runs evs)
  | _ :: evs => n_runs evs
  end.

(** The external commands that exited with status zero. *)
Fixpoint n_runs_ok (evs : list event) : nat :=
  match evs with
  | [] => 0
  | ERun _ returncode :: evs =>
      if Z.eqb returncode 0 then S (n_runs_ok evs) else n_runs_ok evs
  | _ :: evs => n_runs_ok evs
  end.

(** The destinations checked against the cache, latest first. *)
Definition checked (evs : list event) : list path :=
  omap (λ e, match e with ECheck _ dst _ => Some dst | _ => None end) evs.

(** The actions of the sequential encoders: logging, cache checks,
    external commands and cache records. *)
Definition is_encoding (e : event) : Prop :=
  match e with
  | ELog _ _ _ | ECheck _ _ _ | ERun _ _ | ERecord _ _ => True
  | _ => False
  end.

(** The actions of [prepare]: logging and opening the source. *)
Definition is_preparing (e : event) : Prop :=
  match e with
  | ELog _ _ _ | EOpen _ => True
  | _ => False
  end.

(** Nothing but the trace differs between the two worlds. *)
Definition same_state (w w' : world) : Prop :=
  fs w' = fs w ∧ cache w' = cache w ∧ MAXBLOCK w' = MAXBLOCK w
  ∧ queue w' = queue w ∧ clock w' = clock w ∧ calls w' = calls w.

(** Every record among the actions is made for [src] and for a
    destination that one of the actions saved. *)
Definition records_follow_saves (src : path) (evs : list event) : Prop :=
  ∀ s d, (s, d) ∈ records evs → s = src ∧ d ∈ saved evs.

(** The encoder buffer has not shrunk. *)
Definition grows : relation world := λ w w', MAXBLOCK w ≤ MAXBLOCK w'.

(** The later world is reached by actions whose records follow saves. *)
Definition recording (src : path) : relation world :=
  λ w w', ∃ evs, trace w' = (evs ++ trace w)%list ∧ records_follow_saves src evs.

(** The external commands that exited with another status than zero. *)
Fixpoint n_runs_failed (evs : list event) : nat :=
  match evs with
  | [] => 0
  | ERun _ returncode :: evs =>
      if Z.eqb returncode 0 then n_runs_failed evs else S (n_runs_failed evs)
  | _ :: evs => n_runs_failed evs
  end.

(** The later world is reached by the actions of an encoder, which leave
    the queue and the encoder buffer alone. *)
Definition encoding : relation world :=
  λ w w', queue w' = queue w ∧ MAXBLOCK w' = MAXBLOCK w
          ∧ ∃ evs, trace w' = (evs ++ trace w)%list ∧ Forall is_encoding evs.

(** At most [k] commands were run, and as many records were made as
    commands exited with status zero. *)
Definition tally (k : nat) : relation world :=
  λ w w', ∃ evs, trace w' = (evs ++ trace w)%list
                 ∧ n_records evs = n_runs_ok evs ∧ (n_runs evs ≤ k)%nat.

(** At most [k] commands were run, and no record was made unless a
    command exited with status zero. *)
Definition vtally (k : nat) : relation world :=
  λ w w', ∃ evs, trace w' = (evs ++ trace w)%list
                 ∧ (n_runs_ok evs = 0%nat → n_records evs = 0%nat)
                 ∧ (n_runs evs ≤ k)%nat.

(** No command failed, or the one that failed is the last action but the
    error logged for it. *)
Definition failure_last (evs : list event) : Prop :=
  n_runs_failed evs = 0%nat
  ∨ ∃ msg args command returncode rest,
      evs = ELog ERROR msg args :: ERun command returncode :: rest
      ∧ returncode ≠ 0 ∧ n_runs_failed rest = 0%nat.

Definition is_check (e : event) : Prop :=
  match e with ECheck _ _ _ => True | _ => False end.

Definition is_record (e : event) : Prop :=
  match e with ERecord _ _ => True | _ => False end.

(** [m] adds no failed command to the trace, unless it ends the loop or
    the function it is part of ([went_on] is false of its result), and
    then the failed command is the last action but the error log. *)
Definition stops_on_failure {A} (went_on : A → bool) (m : M A) : Prop :=
  ∀ w, ∃ evs, trace (m w).2 = (evs ++ trace w)%list
              ∧ match (m w).1 with
                | Ok a => if went_on a then n_runs_failed evs = 0%nat
                          else failure_last evs
                | Raise _ => n_runs_failed evs = 0%nat
                end.

(** The loop goes on to its next item. *)
Definition goes_on {R S} (r : ctl R * S) : bool :=
  match r.1 with Next => true | Return _ => false end.

(** The actions of the scan worker: opening the source, checking the
    cache and putting its unit on the queue. *)
Definition is_scanning (e : event) : Prop :=
  match e with
  | EOpen _ | ECheck _ _ _ | EPut (Some 1) => True
  | _ => False
  end.

(** The later world is reached by scanning: files, cache, encoder buffer
    and call count are as they were. *)
Definition scanning : relation world :=
  λ w w', fs w' = fs w ∧ cache w' = cache w ∧ MAXBLOCK w' = MAXBLOCK w
          ∧ calls w' = calls w
          ∧ ∃ evs, trace w' = (evs ++ trace w)%list ∧ Forall is_scanning evs.

(** The file at [p] is there and PIL can decode it. *)
Definition readable (fs : gmap path file) (p : path) : Prop :=
  ∃ t img, fs !! p = Some (File t (Some img)).

(** Every variant of the asset is cached. *)
Definition fully_cached (w : world) (base : Base.t) : Prop :=
  ∃ t img,
    fs w !! Base.filepath base = Some (File t (Some img))
    ∧ ∀ th, th ∈ values (Base.thumbnails base) →
        Cache.needs_to_be_generated (fs w) (cache w) (Base.filepath base)
          (build_path (Thumbnail.filepath th))
          (cache_params img (Base.options base)) = false.

(** The file at [p], if any, is as it was. *)
Definition keeps_file (p : path) : relation world :=
  λ w w', fs w' !! p = fs w !! p.

(** The destinations of the variants of an asset. *)
Definition variant_paths (base : Base.t) : list path :=
  (λ th, build_path (Thumbnail.filepath th)) <$> values (Base.thumbnails base).

(** ** More sample data *)

Module Cases.

(** A photo taken with the camera on its side: its EXIF orientation tag
    (0x0112 = 274) is 6. *)
Definition tagged : image :=
  {| format := "JPEG"; im_size := (4000, 3000); info := ∅;
     getexif := [(274, 6)]; get_sampling := 2 |}.

(** A release of Pillow that cannot handle the EXIF data: transposing by
    the EXIF tag and saving with EXIF data both raise [TypeError]. *)
Definition old_pillow : externals :=
  {| ext_processes := 2;
     ext_save := λ _ _ _ _ params,
       match params !! "exif" with Some _ => Some TypeError | None => None end;
     ext_copy := λ _, None;
     ext_thumbnail := Samples.pil_thumbnail;
     ext_exif_transpose := λ _, inl TypeError;
     ext_transpose := λ _ im, inr im;
     ext_run := λ _ _, inr (0, []);
     ext_quote := λ s, s;
     ext_format := λ s _, inr s |}.

Definition tagged_world : world :=
  {| fs := {[ "g/t.jpg" := File 10 (Some tagged) ]};
     cache := ∅; MAXBLOCK := 65536; queue := []; clock := 100;
     calls := 0; trace := [] |}.

Definition small_t : Thumbnail.t :=
  Thumbnail.Make "g/t-small.jpg" (Some 800, Some 600).

Definition tagged_t : Base.t :=
  Base.Make "g/t.jpg" {[ "quality" := VInt 75; "auto-orient" := VBool true ]}
            [("small", small_t)] [].

Definition tagged_params : dict := image_params tagged (Base.options tagged_t).

(** A registered image whose source is not in the gallery. *)
Definition missing : Base.t :=
  Base.Make "g/missing.jpg" {[ "quality" := VInt 75 ]}
            [("small", Thumbnail.Make "g/missing-small.jpg" (Some 800, Some 600))]
            [].







End Cases.

(** ** Properties of utils.py *)

Module UtilsFacts.
Import Utils.

Lemma del_if_in_delete k (d : dict) : del_if_in k d = delete k d.
Proof.
  unfold del_if_in. case_decide as H; [done|].
  symmetry. apply delete_id. by apply eq_None_not_Some.
Qed.

Lemma remove_superficial_options_deletes (d : dict) :
  remove_superficial_options d = foldr delete d (reverse superficial).
Proof.
  unfold remove_superficial_options. by rewrite !del_if_in_delete.
Qed.

Lemma remove_superficial_options_lookup (d : dict) (k : string) :
  remove_superficial_options d !! k
  = if decide (k ∈ superficial) then None else d !! k.
Proof.
  unfold remove_superficial_options. rewrite !del_if_in_delete.
  case_decide as Hk.
  - unfold superficial in Hk.
    repeat (apply elem_of_cons in Hk as [->|Hk]; [by simplify_map_eq|]).
    by apply elem_of_nil in Hk.
  - unfold superficial in Hk.
    rewrite !lookup_delete_ne; [done|..]; intros <-; apply Hk; compute_done.
Qed.

Lemma dict_del_if_in_lookup k l (h : heap) d :
  h !! l = Some d → dict_del_if_in k l h !! l = Some (del_if_in k d).
Proof.
  intros Hl. unfold dict_del_if_in, del_if_in. rewrite Hl.
  case_decide; [by rewrite lookup_insert_eq|done].
Qed.

Lemma dict_del_if_in_other k l l' (h : heap) :
  l' ≠ l → dict_del_if_in k l h !! l' = h !! l'.
Proof.
  intros Hne. unfold dict_del_if_in.
  destruct (h !! l) as [d|]; [|done].
  case_decide; [by rewrite lookup_insert_ne|done].
Qed.

(** The store version returns a new object holding the value computed by
    the value version, and touches no other object. *)
Lemma remove_superficial_options_ref_spec (h : heap) l d :
  h !! l = Some d →
  ∃ c h', remove_superficial_options_ref l h = Some (c, h')
          ∧ h !! c = None
          ∧ h' !! c = Some (remove_superficial_options d)
          ∧ ∀ l', l' ≠ c → h' !! l' = h !! l'.
Proof.
  intros Hl. unfold remove_superficial_options_ref, dict_copy. rewrite Hl.
  set (c := fresh (dom h)).
  assert (Hc : h !! c = None).
  { apply not_elem_of_dom. apply is_fresh. }
  eexists c, _. split; [reflexivity|]. split; [done|]. split.
  - unfold remove_superficial_options.
    repeat (erewrite dict_del_if_in_lookup; [reflexivity|]).
    apply lookup_insert_eq.
  - intros l' Hne.
    rewrite !dict_del_if_in_other by done. by rewrite lookup_insert_ne.
Qed.

End UtilsFacts.

Module UtilsClaims.
Import Utils UtilsFacts.

(** C1, as stated, fails: ["float"] is not among the superficial keys the
    specification enumerates, yet two option mappings that differ at
    ["float"] are stripped to the same mapping. *)
Lemma remove_superficial_options_float_collision :
  let m1 : dict := {[ "float" := VStr "left" ]} in
  let m2 : dict := {[ "float" := VStr "right" ]} in
  ("float" ∉ spec_superficial)
  ∧ m1 !! "float" ≠ m2 !! "float"
  ∧ remove_superficial_options m1 = remove_superficial_options m2.
Proof.
  simpl. split; [|split].
  - compute_done.
  - by simplify_map_eq.
  - apply map_eq. intros k. rewrite !remove_superficial_options_lookup.
    case_decide as Hk; [done|].
    rewrite !lookup_singleton_ne; [done|..];
      intros <-; apply Hk; compute_done.
Qed.

(** C1 (amended): the stripping removes exactly the keys name, exif, text,
    type, size, float and resize and keeps every other item, so two
    option mappings are stripped to the same mapping if and only if they
    agree on every key outside these seven. *)
Theorem remove_superficial_options_exact (m1 m2 : dict) :
  (∀ k, remove_superficial_options m1 !! k
        = if decide (k ∈ superficial) then None else m1 !! k)
  ∧ (remove_superficial_options m1 = remove_superficial_options m2
     ↔ ∀ k, k ∉ superficial → m1 !! k = m2 !! k).
Proof.
  split; [apply remove_superficial_options_lookup|]. split.
  - intros Heq k Hk.
    assert (H := f_equal (.!! k) Heq). simpl in H.
    rewrite !remove_superficial_options_lookup in H.
    by rewrite !decide_False in H.
  - intros Hagree. apply map_eq. intros k.
    rewrite !remove_superficial_options_lookup.
    case_decide; [done|]. by apply Hagree.
Qed.

Lemma remove_superficial_options_exact_witness :
  remove_superficial_options {[ "name" := VStr "a"; "quality" := VInt 75 ]}
  = remove_superficial_options {[ "quality" := VInt 75; "text" := VStr "b" ]}.
Proof.
  apply (remove_superficial_options_exact
           {[ "name" := VStr "a"; "quality" := VInt 75 ]}
           {[ "quality" := VInt 75; "text" := VStr "b" ]}).
  intros k Hk.
  destruct (decide (k = "name")) as [->|Hn].
  { exfalso. apply Hk. compute_done. }
  destruct (decide (k = "text")) as [->|Ht].
  { exfalso. apply Hk. compute_done. }
  destruct (decide (k = "quality")) as [->|Hq]; by simplify_map_eq.
Defined.

(** C10: the call leaves the argument dictionary, and every other object,
    as it was; the result is a new object, and each of its items is an
    item of the argument under a key that is not superficial, every such
    item of the argument being kept. *)
Theorem remove_superficial_options_ref_frame (h : heap) (l : positive) (d : dict) :
  h !! l = Some d →
  ∃ c h' d',
    remove_superficial_options_ref l h = Some (c, h')
    ∧ c ≠ l
    ∧ h' !! l = Some d
    ∧ (∀ l', l' ≠ c → h' !! l' = h !! l')
    ∧ h' !! c = Some d'
    ∧ (∀ k v, d' !! k = Some v → (k ∉ superficial) ∧ d !! k = Some v)
    ∧ (∀ k, k ∉ superficial → d' !! k = d !! k).
Proof.
  intros Hl.
  destruct (remove_superficial_options_ref_spec h l d Hl)
    as (c & h' & Hrun & Hfresh & Hc & Hframe).
  assert (Hne : c ≠ l) by (intros ->; congruence).
  exists c, h', (remove_superficial_options d).
  split; [done|]. split; [done|].
  split; [by rewrite Hframe|]. split; [done|]. split; [done|]. split.
  - intros k v. rewrite remove_superficial_options_lookup.
    case_decide; [done|]. by intros ->.
  - intros k Hk. rewrite remove_superficial_options_lookup.
    by rewrite decide_False.
Qed.

Lemma remove_superficial_options_ref_frame_witness :
  ∃ c h' d',
    remove_superficial_options_ref 1%positive
      {[ 1%positive := {[ "name" := VStr "a"; "quality" := VInt 75 ]} ]}
    = Some (c, h')
    ∧ c ≠ 1%positive
    ∧ h' !! 1%positive = Some {[ "name" := VStr "a"; "quality" := VInt 75 ]}
    ∧ (∀ l', l' ≠ c →
         h' !! l'
         = ({[ 1%positive := {[ "name" := VStr "a"; "quality" := VInt 75 ]} ]}
              : heap) !! l')
    ∧ h' !! c = Some d'
    ∧ (∀ k v, d' !! k = Some v →
         (k ∉ superficial)
         ∧ ({[ "name" := VStr "a"; "quality" := VInt 75 ]} : dict) !! k = Some v)
    ∧ (∀ k, k ∉ superficial →
         d' !! k = ({[ "name" := VStr "a"; "quality" := VInt 75 ]} : dict) !! k).
Proof.
  apply (remove_superficial_options_ref_frame
           {[ 1%positive := {[ "name" := VStr "a"; "quality" := VInt 75 ]} ]}
           1%positive).
  reflexivity.
Defined.

End UtilsClaims.

(** ** What the computations preserve *)

Module TraceFacts.

#[global] Instance extends_preorder P : PreOrder (extends P).
Proof.
  split.
  - intros w. by exists [].
  - intros w1 w2 w3 (evs & Ht & Hevs) (evs' & Ht' & Hevs').
    exists (evs' ++ evs)%list. rewrite Ht', Ht, (assoc_L app).
    split; [done|]. by apply Forall_app.
Qed.

#[global] Instance works_preorder : PreOrder works.
Proof.
  split.
  - intros w. split; [done|]. reflexivity.
  - intros w1 w2 w3 [Hq H] [Hq' H']. split; [congruence|]. by etrans.
Qed.

Lemma extends_mono (P Q : event → Prop) w w' :
  (∀ e, P e → Q e) → extends P w w' → extends Q w w'.
Proof.
  intros HPQ (evs & Ht & Hevs). exists evs. split; [done|].
  by eapply Forall_impl.
Qed.

Lemma works_not_dump w w' : works w w' → extends not_dump w w'.
Proof. intros [_ H]. eapply extends_mono; [|done]. by intros []. Qed.

(** The tasks of [get_tasks] hold the items of the input, in order. *)
Lemma get_tasks_concat {A} (size fuel : nat) (xs : list A) :
  (0 < size)%nat → (length xs ≤ fuel)%nat →
  concat (get_tasks size fuel xs) = xs.
Proof.
  intros Hsize. revert xs. induction fuel as [|fuel IH]; intros xs Hfuel; simpl.
  { destruct xs; [done|simpl in Hfuel; lia]. }
  destruct xs as [|x xs]; [by destruct size|].
  destruct size as [|size]; [lia|]. simpl.
  rewrite IH.
  - by rewrite take_drop.
  - rewrite length_drop. simpl in Hfuel. lia.
Qed.

Lemma chunksize_pos E n : (0 < n)%nat → (0 < chunksize E n)%nat.
Proof.
  intros Hn. unfold chunksize.
  set (d := (Pos.to_nat (ext_processes E) * 4)%nat).
  assert (0 < d)%nat by (subst d; lia).
  destruct (n mod d =? 0)%nat eqn:Hmod; [|lia].
  apply Nat.eqb_eq in Hmod.
  pose proof (Nat.div_mod_eq n d). nia.
Qed.

Lemma pool_tasks_concat {A} E (xs : list A) :
  concat (get_tasks (chunksize E (length xs)) (length xs) xs) = xs.
Proof.
  destruct xs as [|x xs]; [done|].
  apply get_tasks_concat; [|done]. apply chunksize_pos. simpl. lia.
Qed.

Section Preserves.
Context (R : relation world) `{!PreOrder R}.

Lemma preserves_ret {A} (a : A) : preserves R (ret a).
Proof. intros w. reflexivity. Qed.

Lemma preserves_raise {A} e : preserves R (@raise A e).
Proof. intros w. reflexivity. Qed.

Lemma preserves_bind {A B} (m : M A) (k : A → M B) :
  preserves R m → (∀ a, preserves R (k a)) → preserves R (bind m k).
Proof.
  intros Hm Hk w. unfold bind. specialize (Hm w).
  destruct (m w) as [[a|e] w1]; simpl in *; [|done].
  etrans; [done|]. apply Hk.
Qed.

Lemma preserves_try_except {A} (m : M A) handler :
  preserves R m → (∀ e h, handler e = Some h → preserves R h) →
  preserves R (try_except m handler).
Proof.
  intros Hm Hh w. unfold try_except. specialize (Hm w).
  destruct (m w) as [[a|e] w1]; simpl in *; [done|].
  destruct (handler e) as [h|] eqn:He; [|done].
  etrans; [done|]. by eapply Hh.
Qed.

Lemma preserves_lift {A} (r : exn + A) : preserves R (lift r).
Proof. destruct r; [apply preserves_raise|apply preserves_ret]. Qed.

Lemma preserves_del_key k d : preserves R (del_key k d).
Proof.
  unfold del_key. destruct (d !! k); [apply preserves_ret|apply preserves_raise].
Qed.

Lemma preserves_for_in {X S T} (xs : list X) (s : S)
    (body : X → S → M (ctl T * S)) :
  (∀ x s, preserves R (body x s)) → preserves R (for_in xs s body).
Proof.
  intros Hbody. revert s. induction xs as [|x xs IH]; intros s; simpl.
  - apply preserves_ret.
  - apply preserves_bind; [done|].
    intros [[|r] s']; [apply IH|apply preserves_ret].
Qed.

Lemma preserves_mapstar {A B} (f : A → M B) (xs : list A) :
  (∀ x, x ∈ xs → preserves R (f x)) → preserves R (mapstar f xs).
Proof.
  induction xs as [|x xs IH]; intros Hf; simpl; [apply preserves_ret|].
  apply preserves_bind; [apply Hf; left|]. intros y.
  apply preserves_bind; [|intros ys; apply preserves_ret].
  apply IH. intros x' Hin. apply Hf. by right.
Qed.

Lemma preserves_worker_task {A B} (f : A → M B) (chunk : list A) :
  preserves R (mapstar f chunk) → preserves R (worker_task f chunk).
Proof.
  intros Hchunk w. unfold worker_task. specialize (Hchunk w).
  by destruct (mapstar f chunk w) as [[ys|e] w'].
Qed.

Lemma preserves_run_tasks {A B} (f : A → M B) (tasks : list (list A)) :
  (∀ x, x ∈ concat tasks → preserves R (f x)) → preserves R (run_tasks f tasks).
Proof.
  induction tasks as [|chunk tasks IH]; intros Hf; simpl; [apply preserves_ret|].
  apply preserves_bind.
  - apply preserves_worker_task, preserves_mapstar.
    intros x Hin. apply Hf. simpl. apply elem_of_app. by left.
  - intros r. apply preserves_bind; [|intros rs; apply preserves_ret].
    apply IH. intros x Hin. apply Hf. simpl. apply elem_of_app. by right.
Qed.

Lemma preserves_pool_map_elem {A B} E (f : A → M B) (xs : list A) :
  (∀ x, x ∈ xs → preserves R (f x)) → preserves R (pool_map E f xs).
Proof.
  intros Hf. unfold pool_map.
  apply preserves_bind; [|intros rs; apply preserves_lift].
  apply preserves_run_tasks. by rewrite pool_tasks_concat.
Qed.

Lemma preserves_pool_map {A B} E (f : A → M B) (xs : list A) :
  (∀ x, preserves R (f x)) → preserves R (pool_map E f xs).
Proof. intros Hf. apply preserves_pool_map_elem. intros x _. apply Hf. Qed.

Lemma preserves_for_each {A} (f : A → M unit) (xs : list A) :
  (∀ x, preserves R (f x)) → preserves R (for_each f xs).
Proof.
  intros Hf. induction xs as [|x xs IH]; simpl; [apply preserves_ret|].
  by apply preserves_bind.
Qed.

End Preserves.

Lemma preserves_mono {A} (R R' : relation world) (m : M A) :
  (∀ w w', R w w' → R' w w') → preserves R m → preserves R' m.
Proof. intros HR Hm w. apply HR, Hm. Qed.

(** One action added to the trace, the queue untouched. *)
Lemma works_one e w w' :
  is_work e → queue w' = queue w → trace w' = e :: trace w → works w w'.
Proof.
  intros He Hq Ht. split; [done|]. exists [e]. split; [done|]. by constructor.
Qed.

Lemma works_emit e : is_work e → preserves works (emit e).
Proof. intros He w. by apply (works_one e). Qed.

Lemma works_Image_open p : preserves works (Image_open p).
Proof.
  intros w. unfold Image_open.
  destruct (fs w !! p) as [[t [img|]]|]; [|reflexivity..].
  by apply (works_one (EOpen p)).
Qed.

Lemma works_needs_to_be_generated src dst options :
  preserves works (needs_to_be_generated src dst options).
Proof. intros w. by eapply (works_one (ECheck _ _ _)). Qed.

Lemma works_cache_picture src dst options :
  preserves works (cache_picture src dst options).
Proof. intros w. by apply (works_one (ERecord src dst)). Qed.

Lemma works_im_save E im dst params : preserves works (im_save E im dst params).
Proof.
  intros w. unfold im_save.
  destruct (ext_save _ _ _ _ _ _); by eapply (works_one (ESave _ _ _ _)).
Qed.

Lemma works_get_MAXBLOCK : preserves works get_MAXBLOCK.
Proof. intros w. reflexivity. Qed.

Lemma works_set_MAXBLOCK n : preserves works (set_MAXBLOCK n).
Proof. intros w. split; [done|]. by exists []. Qed.

Lemma works_subprocess_run E command : preserves works (subprocess_run E command).
Proof.
  intros w. unfold subprocess_run.
  destruct (ext_run _ _ _) as [e|[rc written]].
  - split; [done|]. by exists [].
  - by eapply (works_one (ERun _ _)).
Qed.

Ltac works_step :=
  lazymatch goal with
  | |- preserves _ (bind _ _) => apply preserves_bind; [apply _| |intros ?]
  | |- preserves _ (ret _) => apply preserves_ret; apply _
  | |- preserves _ (raise _) => apply preserves_raise; apply _
  | |- preserves _ (lift _) => apply preserves_lift; apply _
  | |- preserves _ (del_key _ _) => apply preserves_del_key; apply _
  | |- preserves _ (emit _) => apply works_emit
  | |- preserves _ (log _ _ _) => apply works_emit
  | |- preserves _ (Image_open _) => apply works_Image_open
  | |- preserves _ (needs_to_be_generated _ _ _) =>
      apply works_needs_to_be_generated
  | |- preserves _ (cache_picture _ _ _) => apply works_cache_picture
  | |- preserves _ (im_save _ _ _ _) => apply works_im_save
  | |- preserves _ get_MAXBLOCK => apply works_get_MAXBLOCK
  | |- preserves _ (set_MAXBLOCK _) => apply works_set_MAXBLOCK
  | |- preserves _ (subprocess_run _ _) => apply works_subprocess_run
  | |- preserves _ (for_in _ _ _) => apply preserves_for_in; [apply _|intros ? ?]
  | |- preserves _ (try_except _ _) =>
      apply preserves_try_except;
      [apply _|
      |let e := fresh "e" in let h := fresh "h" in let H := fresh "H" in
       intros e h H; destruct e; simplify_eq H; intros <-]
  | |- preserves _ (if ?b then _ else _) => destruct b
  | |- preserves _ (match ?x with _ => _ end) => destruct x
  | |- is_work _ => exact I
  | |- True => exact I
  end.

Ltac works_auto := repeat (works_step; simpl).

Section Workers.
Context (E : externals).

Lemma works_strip_exif params options : preserves works (strip_exif params options).
Proof. unfold strip_exif. works_auto. Qed.

Lemma works_reorient base img params : preserves works (reorient E base img params).
Proof. unfold reorient. works_auto. Qed.

Lemma works_prepare base : preserves works (prepare E base).
Proof.
  unfold prepare. works_auto.
  - apply works_reorient.
  - apply works_strip_exif.
Qed.

Lemma works_render_thumbnail base img thumbnail params :
  preserves works (render_thumbnail E base img thumbnail params).
Proof. unfold render_thumbnail, area4, icc_profile_len. works_auto. Qed.

Lemma works_command_fails command options :
  preserves works (command_fails E command options).
Proof. unfold command_fails. works_auto. Qed.

Lemma works_render_video base : preserves works (render_video E base).
Proof.
  unfold render_video, reencode_video, collect_thumbnail.
  works_auto; try apply works_command_fails; works_auto;
    try apply works_command_fails; works_auto.
Qed.

Lemma works_reencode_audio base : preserves works (reencode_audio E base).
Proof.
  unfold reencode_audio.
  works_auto; try apply works_command_fails; works_auto.
Qed.

End Workers.

End TraceFacts.

(** ** The pool *)

Module PoolFacts.
Import TraceFacts.

Lemma mapstar_app {A B} (f : A → M B) (xs ys : list A) w :
  mapstar f (xs ++ ys) w
  = match mapstar f xs w with
    | (Ok rs, w1) =>
        match mapstar f ys w1 with
        | (Ok rs', w2) => (Ok (rs ++ rs')%list, w2)
        | (Raise e, w2) => (Raise e, w2)
        end
    | (Raise e, w1) => (Raise e, w1)
    end.
Proof.
  revert w. induction xs as [|x xs IH]; intros w; simpl.
  - unfold ret. by destruct (mapstar f ys w) as [[rs'|e] w2].
  - unfold bind, ret. destruct (f x w) as [[y|e] w1]; [|done].
    rewrite IH. destruct (mapstar f xs w1) as [[rs|e] w2]; [|done].
    by destruct (mapstar f ys w2) as [[rs'|e] w3].
Qed.

(** The tasks never raise, and what they report is the outcome of running
    all the calls in order up to the first that raises; the worlds agree
    when no call raises. *)
Lemma run_tasks_result {A B} (f : A → M B) (tasks : list (list A)) w :
  ∃ rs w', run_tasks f tasks w = (Ok rs, w')
    ∧ match mapstar f (concat tasks) w with
      | (Ok ys, w1) => map_result rs = inr ys ∧ w' = w1
      | (Raise e, _) => map_result rs = inl e
      end.
Proof.
  revert w. induction tasks as [|chunk tasks IH]; intros w; simpl.
  { by eexists _, _. }
  rewrite mapstar_app. unfold bind at 1, worker_task.
  destruct (mapstar f chunk w) as [[ys|e] w1].
  - destruct (IH w1) as (rs & w' & Hrun & Hres).
    unfold bind, ret. rewrite Hrun.
    eexists _, _. split; [done|]. simpl.
    destruct (mapstar f (concat tasks) w1) as [[zs|e] w2].
    + by destruct Hres as [-> ->].
    + by rewrite Hres.
  - destruct (IH w1) as (rs & w' & Hrun & _).
    unfold bind, ret. rewrite Hrun. by eexists _, _.
Qed.

(** The outcome of [pool.map] is the outcome of running all the calls in
    order up to the first that raises; when none raises the worlds agree
    as well, and when one raises the other chunks have still been run. *)
Lemma pool_map_result {A B} E (f : A → M B) (xs : list A) w :
  match mapstar f xs w with
  | (Ok ys, w1) => pool_map E f xs w = (Ok ys, w1)
  | (Raise e, _) => ∃ w', pool_map E f xs w = (Raise e, w')
  end.
Proof.
  unfold pool_map.
  destruct (run_tasks_result f
              (get_tasks (chunksize E (length xs)) (length xs) xs) w)
    as (rs & w' & Hrun & Hres).
  rewrite pool_tasks_concat in Hres. unfold bind. rewrite Hrun.
  destruct (mapstar f xs w) as [[ys|e] w1].
  - by destruct Hres as [-> ->].
  - rewrite Hres. by eexists.
Qed.

End PoolFacts.

(** ** The scan worker *)

Module ScanFacts.

Lemma get_flag_is_Some (d : dict) k : get_flag d k = true → is_Some (d !! k).
Proof. unfold get_flag. by destruct (d !! k). Qed.

(** The guarded deletion of the EXIF data never raises. *)
Lemma strip_exif_run params options w :
  strip_exif params options w
  = (Ok (if get_flag params "exif" && get_flag options "strip"
         then delete "exif" params else params), w).
Proof.
  unfold strip_exif.
  destruct (get_flag params "exif") eqn:Hexif; simpl; [|done].
  destruct (get_flag options "strip"); simpl; [|done].
  apply get_flag_is_Some in Hexif as [v Hv]. unfold del_key. by rewrite Hv.
Qed.

Section Loop.
Context (base : Base.t) (params : dict).

Let src := Base.filepath base.
Let dst (th : Thumbnail.t) := build_path (Thumbnail.filepath th).

Lemma check_thumbnails_run (ts : list Thumbnail.t) f c mb q ck n tr :
  let dirty th := Cache.needs_to_be_generated f c src (dst th) params in
  for_in ts tt (check_thumbnail base params) (World f c mb q ck n tr)
  = (Ok (if existsb dirty ts then Return (Some base) else Next, tt),
     World f c mb (q ++ if existsb dirty ts then [Some 1] else []) ck n
       ((if existsb dirty ts then [EPut (Some 1)] else [])
        ++ reverse (map (λ th, ECheck src (dst th) (dirty th))
                        (upto_first dirty ts))
        ++ tr)).
Proof.
  intros dirty. revert tr. induction ts as [|th ts IH]; intros tr; simpl.
  - by rewrite (right_id_L [] app).
  - unfold bind at 1. unfold check_thumbnail at 1.
    unfold bind, needs_to_be_generated, emit, queue_put, ret; simpl.
    fold src. fold (dst th). fold (dirty th).
    destruct (dirty th) eqn:Hd; simpl.
    + by rewrite Hd.
    + rewrite IH. rewrite Hd, reverse_cons, <-!(assoc_L app). done.
Qed.

End Loop.

(** What the scan worker does with a source that opens. *)
Lemma noncached_images_readable (base : Base.t) (w : world) (t : Z) (img : image) :
  fs w !! Base.filepath base = Some (File t (Some img)) →
  let src := Base.filepath base in
  let dst th := build_path (Thumbnail.filepath th) in
  let params := cache_params img (Base.options base) in
  let dirty th := Cache.needs_to_be_generated (fs w) (cache w) src (dst th) params in
  let ts := values (Base.thumbnails base) in
  ∃ r w',
    noncached_images base w = (Ok r, w')
    ∧ ((r = Some base ∧ ∃ th, th ∈ ts ∧ dirty th = true)
       ∨ (r = None ∧ ∀ th, th ∈ ts → dirty th = false))
    ∧ trace w'
      = EPut (Some 1)
        :: (reverse (map (λ th, ECheck src (dst th) (dirty th))
                         (upto_first dirty ts))
            ++ EOpen src :: trace w)%list
    ∧ fs w' = fs w ∧ cache w' = cache w ∧ MAXBLOCK w' = MAXBLOCK w
    ∧ clock w' = clock w ∧ calls w' = calls w
    ∧ queue w' = (queue w ++ [Some 1])%list.
Proof.
  intros Hopen src dst params dirty ts.
  destruct w as [f c mb q ck n tr]. simpl in *.
  unfold noncached_images, bind at 1, Image_open. simpl. rewrite Hopen.
  unfold bind at 1, emit, ret at 1. simpl.
  unfold bind at 1. rewrite strip_exif_run.
  fold (cache_params img (Base.options base)). fold params.
  unfold bind at 1. rewrite check_thumbnails_run.
  fold src. fold ts.
  change (λ th, Cache.needs_to_be_generated f c src
                  (build_path (Thumbnail.filepath th)) params) with dirty.
  destruct (existsb dirty ts) eqn:Hex.
  - eexists _, _. split; [reflexivity|]. simpl. split; [|done].
    left. split; [done|].
    apply existsb_exists in Hex as (th & Hin & Hd).
    exists th. by rewrite list_elem_of_In.
  - unfold bind, queue_put, ret. simpl.
    eexists _, _. split; [reflexivity|]. simpl.
    rewrite !(right_id_L [] app). split; [|done].
    right. split; [done|]. intros th Hin.
    destruct (dirty th) eqn:Hd; [|done].
    assert (existsb dirty ts = true); [|congruence].
    apply existsb_exists. exists th. by rewrite <-list_elem_of_In.
Qed.

End ScanFacts.

Module ScanClaims.
Import ScanFacts.

(** C6, as stated, fails: a registered image whose source cannot be
    opened makes the scan worker raise; it returns neither the asset nor
    nothing, checks no variant and puts no unit on the queue. *)
Lemma noncached_images_unreadable_source :
  Samples.fresh_world.(fs) !! Base.filepath Cases.missing = None
  ∧ noncached_images Cases.missing Samples.fresh_world
    = (Raise OSError, Samples.fresh_world).
Proof. split; vm_compute; reflexivity. Qed.

(** C6 (amended): for a registered image whose source can be opened, the
    scan worker returns the asset if and only if the needs-regeneration
    check of at least one variant is true and returns nothing when every
    variant is cached; it checks the variants in order up to and including
    the first dirty one and no further; and it neither decodes nor
    resizes: besides opening the source, checking the cache and putting
    one unit on the queue it does nothing, and files, cache and encoder
    buffer are as before.  For a registered image whose source cannot be
    opened the worker raises [OSError] and does nothing else. *)
Theorem noncached_images_scan (base : Base.t) (w : world) :
  let src := Base.filepath base in
  let dst th := build_path (Thumbnail.filepath th) in
  let ts := values (Base.thumbnails base) in
  (∀ t img,
     fs w !! src = Some (File t (Some img)) →
     let params := cache_params img (Base.options base) in
     let dirty th :=
       Cache.needs_to_be_generated (fs w) (cache w) src (dst th) params in
     ∃ r w',
       noncached_images base w = (Ok r, w')
       ∧ ((r = Some base ∧ ∃ th, th ∈ ts ∧ dirty th = true)
          ∨ (r = None ∧ ∀ th, th ∈ ts → dirty th = false))
       ∧ trace w'
         = EPut (Some 1)
           :: (reverse (map (λ th, ECheck src (dst th) (dirty th))
                            (upto_first dirty ts))
               ++ EOpen src :: trace w)%list
       ∧ fs w' = fs w ∧ cache w' = cache w ∧ MAXBLOCK w' = MAXBLOCK w
       ∧ clock w' = clock w ∧ calls w' = calls w
       ∧ queue w' = (queue w ++ [Some 1])%list)
  ∧ (¬ readable (fs w) src → noncached_images base w = (Raise OSError, w)).
Proof.
  intros src dst ts. split.
  - intros t img Hopen. by apply (noncached_images_readable base w t img).
  - intros Hbad. unfold noncached_images, bind at 1, Image_open.
    fold src. destruct (fs w !! src) as [[t [img|]]|] eqn:Hopen; [|done..].
    exfalso. apply Hbad. by exists t, img.
Qed.

Lemma noncached_images_scan_witness :
  ∃ w', noncached_images Samples.photo_a Samples.half_built
        = (Ok (Some Samples.photo_a), w')
        ∧ trace w'
          = [EPut (Some 1);
             ECheck "g/a.jpg" "build/g/a-wide.jpg" true;
             ECheck "g/a.jpg" "build/g/a-small.jpg" false;
             EOpen "g/a.jpg"].
Proof.
  destruct (proj1 (noncached_images_scan Samples.photo_a Samples.half_built)
              10 Samples.photo eq_refl)
    as (r & w' & Hrun & Hr & Htrace & _).
  exists w'. split.
  - rewrite Hrun. destruct Hr as [[-> _]|[_ Hclean]]; [done|].
    exfalso. specialize (Hclean Samples.wide).
    vm_compute in Hclean. discriminate Hclean.
    apply list_elem_of_In. right. by left.
  - rewrite Htrace. vm_compute. reflexivity.
Defined.

End ScanClaims.

(** ** Progress units *)

Module ProgressFacts.
Import TraceFacts PoolFacts ScanFacts.

Lemma units_app evs evs' : units (evs ++ evs') = (units evs + units evs')%nat.
Proof. unfold units. by rewrite filter_app, length_app. Qed.

Lemma units_work evs : Forall is_work evs → units evs = 0%nat.
Proof.
  unfold units. induction 1 as [|e evs He _ IH]; [done|].
  rewrite filter_cons. case_decide as Heq; [by subst e|done].
Qed.

Lemma progress_trans n m w1 w2 w3 :
  progress n w1 w2 → progress m w2 w3 → progress (n + m) w1 w3.
Proof.
  intros (Hq & evs & Ht & Hevs & Hn) (Hq' & evs' & Ht' & Hevs' & Hm).
  split.
  - by rewrite Hq', Hq, replicate_add, (assoc_L app).
  - exists (evs' ++ evs)%list. rewrite Ht', Ht, (assoc_L app).
    split; [done|]. split; [by apply Forall_app|].
    rewrite units_app. lia.
Qed.

Lemma works_progress w w' : works w w' → progress 0 w w'.
Proof.
  intros (Hq & evs & Ht & Hevs). split.
  - simpl. by rewrite Hq, (right_id_L [] app).
  - exists evs. split; [done|]. split; [|by apply units_work].
    eapply Forall_impl; [done|]. by left.
Qed.

Lemma progress_put w :
  progress 1 w (queue_put (Some 1) w).2.
Proof.
  split; [done|]. exists [EPut (Some 1)]. split; [done|].
  split; [|done]. constructor; [by right|done].
Qed.

Lemma one_unit_noncached_images base : one_unit (noncached_images base).
Proof.
  intros [f c mb q ck n tr].
  unfold noncached_images, bind at 1, Image_open. simpl.
  destruct (f !! Base.filepath base) as [[t [img|]]|] eqn:Hopen;
    [|apply works_progress; reflexivity..].
  unfold bind at 1, emit, ret at 1. simpl.
  unfold bind at 1. rewrite strip_exif_run.
  unfold bind at 1. rewrite check_thumbnails_run.
  fold (cache_params img (Base.options base)).
  set (params := cache_params _ _).
  set (dirty := λ th : Thumbnail.t,
         Cache.needs_to_be_generated f c (Base.filepath base)
           (build_path (Thumbnail.filepath th)) params).
  set (checks := reverse _).
  assert (Hworks : works (World f c mb q ck n tr)
                         (World f c mb q ck n (checks ++ EOpen (Base.filepath base) :: tr))).
  { split; [done|]. exists (checks ++ [EOpen (Base.filepath base)])%list.
    split; [by rewrite <-(assoc_L app)|].
    apply Forall_app. split; [|by constructor].
    apply Forall_reverse, Forall_fmap, Forall_true. done. }
  apply works_progress in Hworks.
  destruct (existsb dirty _); simpl.
  - split; [|done].
    apply (progress_trans 0 1 _ _ _ Hworks). apply (progress_put (World _ _ _ _ _ _ _)).
  - split; [|done].
    apply (progress_trans 0 1 _ _ _ Hworks).
    rewrite (right_id_L [] app). apply (progress_put (World _ _ _ _ _ _ _)).
Qed.

Lemma one_unit_render_thumbnails E base : one_unit (render_thumbnails E base).
Proof.
  intros w. unfold render_thumbnails, bind at 1.
  pose proof (works_prepare E base w) as Hprep.
  destruct (prepare E base w) as [[[img params]|e] w1]; simpl in Hprep;
    [|by apply works_progress].
  unfold bind at 1.
  pose proof (preserves_for_in works (values (Base.thumbnails base)) params
                (render_thumbnail E base img)
                (works_render_thumbnail E base img) w1) as Hloop.
  destruct (for_in _ _ _ w1) as [[r|e] w2]; simpl in Hloop.
  - split; [|done]. eapply (progress_trans 0 1); [|apply progress_put].
    apply works_progress. by etrans.
  - apply works_progress. by etrans.
Qed.

Lemma consume_units n rest :
  consume (replicate n (Some 1) ++ None :: rest) = Some (n, rest).
Proof. induction n as [|n IH]; simpl; [done|]. by rewrite IH. Qed.

Lemma mapstar_progress {A B} (f : A → M B) (xs : list A) w :
  (∀ x, one_unit (f x)) →
  match mapstar f xs w with
  | (Ok ys, w') => length ys = length xs ∧ progress (length xs) w w'
  | (Raise _, w') => ∃ n, (n < length xs)%nat ∧ progress n w w'
  end.
Proof.
  intros Hf. revert w. induction xs as [|x xs IH]; intros w; simpl.
  - split; [done|]. apply works_progress. reflexivity.
  - unfold bind at 1. specialize (Hf x w).
    destruct (f x w) as [[y|e] w1].
    + destruct Hf as [Hf _]. unfold bind at 1. specialize (IH w1).
      destruct (mapstar f xs w1) as [[ys|e] w2]; simpl.
      * destruct IH as [Hlen IH]. split; [by rewrite Hlen|].
        by apply (progress_trans 1 (length xs) w w1 w2).
      * destruct IH as (n & Hn & IH). exists (S n). split; [lia|].
        by apply (progress_trans 1 n w w1 w2).
    + exists 0%nat. split; [lia|done].
Qed.

(** Every task adds the units of the workers that returned: as many as
    there are items when every chunk returned, fewer when one raised. *)
Lemma run_tasks_progress {A B} (f : A → M B) (tasks : list (list A)) w :
  (∀ x, one_unit (f x)) →
  ∃ rs w' n,
    run_tasks f tasks w = (Ok rs, w') ∧ progress n w w'
    ∧ match map_result rs with
      | inr ys => length ys = length (concat tasks) ∧ n = length (concat tasks)
      | inl _ => (n < length (concat tasks))%nat
      end.
Proof.
  intros Hf. revert w. induction tasks as [|chunk tasks IH]; intros w; simpl.
  { exists [], w, 0%nat. split; [done|]. split; [|done].
    apply works_progress. reflexivity. }
  unfold bind at 1, worker_task.
  pose proof (mapstar_progress f chunk w Hf) as Hchunk.
  destruct (mapstar f chunk w) as [[ys|e] w1];
    destruct (IH w1) as (rs & w' & n & Hrun & Hn & Hres);
    unfold bind, ret; rewrite Hrun; simpl; rewrite length_app.
  - destruct Hchunk as [Hlen Hchunk].
    exists (inr ys :: rs), w', (length chunk + n)%nat.
    split; [done|]. split; [by eapply progress_trans|]. simpl.
    destruct (map_result rs) as [e|zs].
    + lia.
    + rewrite length_app. lia.
  - destruct Hchunk as (n0 & Hn0 & Hchunk).
    exists (inl e :: rs), w', (n0 + n)%nat.
    split; [done|]. split; [by eapply progress_trans|]. simpl.
    destruct (map_result rs) as [e'|zs]; lia.
Qed.

Lemma pool_map_progress {A B} E (f : A → M B) (xs : list A) w :
  (∀ x, one_unit (f x)) →
  match pool_map E f xs w with
  | (Ok ys, w') => length ys = length xs ∧ progress (length xs) w w'
  | (Raise _, w') => ∃ n, (n < length xs)%nat ∧ progress n w w'
  end.
Proof.
  intros Hf. unfold pool_map.
  destruct (run_tasks_progress f
              (get_tasks (chunksize E (length xs)) (length xs) xs) w Hf)
    as (rs & w' & n & Hrun & Hn & Hres).
  rewrite pool_tasks_concat in Hres. unfold bind. rewrite Hrun.
  destruct (map_result rs) as [e|ys]; simpl.
  - by exists n.
  - by destruct Hres as [-> ->].
Qed.


(** A phase whose workers all return: the consumer updates the bar once
    per item, then reads the end-of-stream item and closes the bar. *)
Lemma phase_run {A B} E (f : A → M B) (xs : list A) w :
  (∀ x, one_unit (f x)) → queue w = [] → phase_signals E f xs w.
Proof.
  intros Hf Hq. unfold phase_signals, phase, bind at 1.
  pose proof (pool_map_progress E f xs w Hf) as Hmap.
  destruct (pool_map E f xs w) as [[ys|e] w1]; [|done].
  destruct Hmap as (Hlen & Hq1 & evs & Ht & Hevs & Hunits).
  destruct w1 as [f1 c1 mb1 q1 ck1 n1 tr1]. simpl in *.
  unfold bind, queue_put, handle_pbar, ret. simpl.
  rewrite Hq1, Hq. simpl. rewrite consume_units. simpl.
  split; [done|]. split; [done|]. exists evs. by rewrite Ht.
Qed.

End ProgressFacts.

Module ProgressClaims.
Import ProgressFacts.

(** C9, as stated, fails: an item whose save fails twice makes the render
    worker raise, and the worker has then put no unit on the queue. *)
Lemma render_thumbnails_failure_puts_no_unit :
  let '(r, w') :=
    render_thumbnails Samples.fails_twice Samples.photo_b Samples.fresh_world in
  r = Raise OSError
  ∧ units (trace w') = 0%nat
  ∧ queue w' = [].
Proof. vm_compute. done. Qed.

(** C9 (amended): for every item of the scan phase and of the render
    phase on which the worker returns, the worker puts exactly one unit on
    the queue, as its last action; a worker that raises puts none.  The
    consumer stops at the end-of-stream item, after one update per unit
    before it.  The dispatcher puts the end-of-stream item once per phase,
    after the workers of the phase have all returned, and does not put it
    when one of them raised. *)
Theorem progress_units (E : externals) :
  (∀ base, one_unit (noncached_images base))
  ∧ (∀ base, one_unit (render_thumbnails E base))
  ∧ (∀ n rest, consume (replicate n (Some 1) ++ None :: rest) = Some (n, rest))
  ∧ (∀ bases w, queue w = [] → phase_signals E noncached_images bases w)
  ∧ (∀ bases w, queue w = [] → phase_signals E (render_thumbnails E) bases w).
Proof.
  split; [apply one_unit_noncached_images|].
  split; [apply one_unit_render_thumbnails|].
  split; [apply consume_units|].
  split; intros bases w Hq; apply phase_run; try done.
  - apply one_unit_noncached_images.
  - apply one_unit_render_thumbnails.
Qed.

Lemma progress_units_witness :
  phase_signals Samples.reliable (render_thumbnails Samples.reliable)
                [Samples.photo_a; Samples.photo_b] Samples.fresh_world.
Proof.
  apply (progress_units Samples.reliable). reflexivity.
Defined.

End ProgressClaims.

(** ** The coordinator *)

Module PipelineFacts.
Import TraceFacts ProgressFacts.

Lemma progress_not_dump n w w' : progress n w w' → extends not_dump w w'.
Proof.
  intros (_ & evs & Ht & Hevs & _). exists evs. split; [done|].
  eapply Forall_impl; [done|]. intros e [He| ->]; [by destruct e|done].
Qed.

Lemma one_unit_not_dump {B} (m : M B) :
  one_unit m → preserves (extends not_dump) m.
Proof.
  intros Hm w. specialize (Hm w).
  destruct (m w) as [[b|e] w']; simpl.
  - destruct Hm as [Hm _]. by eapply progress_not_dump.
  - by eapply progress_not_dump.
Qed.

Lemma not_dump_one e w w' :
  e ≠ EDump → trace w' = e :: trace w → extends not_dump w w'.
Proof. intros He Ht. exists [e]. split; [done|]. by constructor. Qed.

Lemma not_dump_handle_pbar : preserves (extends not_dump) handle_pbar.
Proof.
  intros w. unfold handle_pbar.
  destruct (consume (queue w)) as [[n rest]|]; simpl.
  - exists (EClose :: replicate n EUpdate). split; [done|].
    constructor; [done|]. by apply Forall_replicate.
  - eexists. split; [done|]. by apply Forall_replicate.
Qed.

Lemma not_dump_phase {A B} E (f : A → M B) (xs : list A) :
  (∀ x, one_unit (f x)) → preserves (extends not_dump) (phase E f xs).
Proof.
  intros Hf. unfold phase.
  apply preserves_bind; [apply _| |intros ys].
  { apply preserves_pool_map; [apply _|]. intros x. by apply one_unit_not_dump. }
  apply preserves_bind; [apply _| |intros _].
  { intros w. by apply (not_dump_one (EPut None)). }
  apply preserves_bind; [apply _|apply not_dump_handle_pbar|intros _].
  apply preserves_ret, _.
Qed.

(** The pipeline dumps the cache as its last action, whatever happened
    before, and dumps it at no other moment. *)
Lemma main_trace E base_imgs base_vids base_audios w :
  ∃ evs, trace (main E base_imgs base_vids base_audios w).2
         = EDump :: (evs ++ trace w)%list
         ∧ Forall not_dump evs.
Proof.
  unfold main, try_finally, cache_dump.
  match goal with |- context [match ?body w with _ => _ end] =>
    assert (Hbody : preserves (extends not_dump) body) end.
  { apply preserves_bind; [apply _| |intros _].
    { intros w0. by exists []. }
    apply preserves_bind; [apply _| |intros _].
    { intros w0. by eapply (not_dump_one (ELog _ _ _)). }
    apply preserves_bind; [apply _| |intros dirty].
    { apply not_dump_phase, one_unit_noncached_images. }
    apply preserves_bind; [apply _| |intros _].
    { destruct (omap id dirty); [apply preserves_ret, _|].
      apply preserves_bind; [apply _| |intros _].
      { intros w0. by eapply (not_dump_one (ELog _ _ _)). }
      apply preserves_bind; [apply _| |intros _; apply preserves_ret, _].
      apply not_dump_phase, one_unit_render_thumbnails. }
    apply preserves_bind; [apply _| |intros _].
    { destruct base_vids; [apply preserves_ret, _|].
      apply preserves_for_each; [apply _|]. intros base.
      eapply preserves_mono; [apply works_not_dump|apply works_render_video]. }
    destruct base_audios; [apply preserves_ret, _|].
    apply preserves_for_each; [apply _|]. intros base.
    eapply preserves_mono; [apply works_not_dump|apply works_reencode_audio]. }
  destruct (Hbody w) as (evs & Ht & Hevs).
  match goal with |- context [match ?body w with _ => _ end] =>
    destruct (body w) as [r w'] end.
  simpl in *. exists evs. by rewrite Ht.
Qed.

End PipelineFacts.

Module PipelineClaims.
Import PipelineFacts.

(** C7: on every exit path of the rendering pipeline, whatever the
    encoder, the external processes and the workers do, including an
    interruption or a failure raised in the scan, render, video or audio
    phase, the cache is dumped exactly once, as the very last action. *)
Theorem cache_dump_exactly_once (E : externals)
    (base_imgs base_vids base_audios : list (path * Base.t)) (w : world) :
  ∃ r w' evs,
    main E base_imgs base_vids base_audios w = (r, w')
    ∧ trace w' = EDump :: (evs ++ trace w)%list
    ∧ EDump ∉ evs.
Proof.
  destruct (main_trace E base_imgs base_vids base_audios w)
    as (evs & Ht & Hevs).
  destruct (main E base_imgs base_vids base_audios w) as [r w'] eqn:Hrun.
  exists r, w', evs. split; [done|]. split; [done|].
  intros Hin. by eapply Forall_forall in Hevs.
Qed.

(** An interrupted build: the operator interrupts the first save of the
    render phase; the interruption reaches the caller after the dump. *)
Example cache_dump_after_interrupt :
  let '(r, w') :=
    main Samples.interrupted [("a", Samples.photo_a)] [("v", Samples.video)]
         [] Samples.fresh_world in
  r = Raise KeyboardInterrupt
  ∧ head (trace w') = Some EDump
  ∧ length (filter (λ e, e = EDump) (trace w')) = 1%nat.
Proof. vm_compute. done. Qed.

End PipelineClaims.

(** ** The cache store *)

Module CacheFacts.
Import Cache.

(** A record makes the variant cached, as long as the derived file is
    there when the record is made. *)
Lemma needs_after_record (fs : gmap path file) (c : store) src dst options :
  is_Some (fs !! dst) →
  needs_to_be_generated fs (cache_picture fs c src dst options) src dst options
  = false.
Proof.
  intros [file Hfile]. unfold needs_to_be_generated, cache_picture.
  rewrite lookup_insert_eq. cbv iota beta.
  apply orb_false_iff.
  split; apply negb_false_iff, bool_decide_eq_true; [done|].
  unfold stat. by rewrite Hfile.
Qed.

(** The check of one variant reads the entry of that variant and the
    state of its two files, nothing else. *)
Lemma needs_frame (fs fs' : gmap path file) (c c' : store) src dst options :
  c' !! (src, dst) = c !! (src, dst) →
  fs' !! src = fs !! src → fs' !! dst = fs !! dst →
  needs_to_be_generated fs' c' src dst options
  = needs_to_be_generated fs c src dst options.
Proof.
  intros Hc Hsrc Hdst. unfold needs_to_be_generated, fingerprint_of, stat.
  by rewrite Hc, Hsrc, Hdst.
Qed.

End CacheFacts.

(** ** The render worker *)

Module RenderFacts.
Import TraceFacts.

#[local] Arguments Z.mul : simpl never.
#[local] Arguments Z.add : simpl never.
#[local] Arguments Z.max : simpl never.

Section Variant.
Context (E : externals) (base : Base.t) (img : image) (params : dict).
Context (thumbnail : Thumbnail.t).

Let src := Base.filepath base.
Let dst := build_path (Thumbnail.filepath thumbnail).




End Variant.

#[global] Instance keeps_store_preorder : PreOrder keeps_store.
Proof.
  split; [done|].
  intros w1 w2 w3 [Hf Hc] [Hf' Hc']. split; congruence.
Qed.


(** *** The loop when no library call fails *)

Section Loop.
Context (E : externals) (base : Base.t) (img : image) (params : dict).

Let src := Base.filepath base.
Let dst (th : Thumbnail.t) := build_path (Thumbnail.filepath th).
Let dirty (w : world) (p : path) :=
  Cache.needs_to_be_generated (fs w) (cache w) src p params.

(** The image saved for a variant whose resize does not fail. *)
Let im (th : Thumbnail.t) : image :=
  match resized E (Thumbnail.size th) img with inr i => i | inl _ => img end.











End Loop.

End RenderFacts.

Module RetryClaims.
Import RenderFacts CacheFacts ProgressFacts.




End RetryClaims.

Module RenderClaims.
Import RenderFacts.



(** A variant outside the theorem: a width of zero makes [im.thumbnail]
    raise, which nothing catches; the worker raises before any save and
    records nothing. *)
Example zero_dimension_raises :
  let flat :=
    Base.Make "g/b.jpg" {[ "quality" := VInt 75 ]}
              [("flat", Thumbnail.Make "g/b-flat.jpg" (Some 0, Some 600))] [] in
  let '(r, w') := render_thumbnails Samples.reliable flat Samples.fresh_world in
  r = Raise ZeroDivisionError
  ∧ n_saves (trace w') = 0%nat
  ∧ records (trace w') = []
  ∧ units (trace w') = 0%nat.
Proof. vm_compute. done. Qed.

End RenderClaims.

Module ResizeClaims.
Import RenderFacts.

(** With both dimensions set and non-zero the loop body does not call
    [im.thumbnail]: what it saves is the copy of the source image. *)
Lemma resized_both_set E (width height : Z) img :
  width ≠ 0 → height ≠ 0 → resized E (Some width, Some height) img = inr img.
Proof.
  intros Hw Hh. unfold resized, resizes. simpl.
  destruct (Z.eqb_spec width 0); [done|].
  by destruct (Z.eqb_spec height 0).
Qed.

(** C5, second half, fails on the code: a 4000 x 3000 photo whose variant
    asks for 800 x 600 is saved as it is, 4000 x 3000, and [im.thumbnail]
    is never called. *)
Lemma both_dimensions_not_resized :
  let '(r, w') :=
    render_thumbnails Samples.reliable Samples.photo_b Samples.fresh_world in
  r = Ok tt
  ∧ Thumbnail.size Samples.small_b = (Some 800, Some 600)
  ∧ im_size <$> (fs w' !! "build/g/b-small.jpg" ≫= content) = Some (4000, 3000)
  ∧ existsb is_resize (trace w') = false.
Proof. vm_compute. done. Qed.

(** With the height unset the box handed to [im.thumbnail] is
    1200 x 65596, and the photo is saved 1200 wide. *)
Example unset_dimension_unbounded :
  let w := (render_thumbnails Samples.reliable Samples.photo_a
                              Samples.fresh_world).2 in
  (EThumbnail (1200, IGNORE_DIM) ∈ trace w)
  ∧ im_size <$> (fs w !! "build/g/a-wide.jpg" ≫= content) = Some (1200, 900).
Proof. split; [compute_done|]. vm_compute. done. Qed.

End ResizeClaims.

Module EncoderClaims.

(** C2 fails on the code: a video with two thumbnails, neither cached;
    the command writes both and exits with status zero; both records are
    then made under the path of the last thumbnail and the first thumbnail
    has no entry in the store. *)
Lemma video_thumbnails_recorded_under_last_path :
  let '(r, w') :=
    render_video
      (Samples.transcoder ["build/g/v-first.jpg"; "build/g/v-last.jpg"])
      Samples.video Samples.fresh_world in
  r = Ok tt
  ∧ length (commands (trace w')) = 1%nat
  ∧ records (trace w')
    = [("g/v.mp4", "build/g/v-last.jpg"); ("g/v.mp4", "build/g/v-last.jpg")]
  ∧ cache w' !! ("g/v.mp4", "build/g/v-first.jpg") = None
  ∧ Cache.needs_to_be_generated (fs w') (cache w') "g/v.mp4"
      "build/g/v-first.jpg" (Base.options Samples.video) = true.
Proof. vm_compute. done. Qed.

(** C8 fails on the code: an audio with two re-encodes, the first cached
    and the second missing; the worker returns at the cached one, runs no
    command, and the second re-encode is neither made nor recorded. *)
Lemma cached_reencode_ends_audio :
  let w := Samples.audio_half_built in
  Cache.needs_to_be_generated (fs w) (cache w) "g/s.ogg" "build/g/s.mp3"
    (Base.options Samples.audio) = false
  ∧ Cache.needs_to_be_generated (fs w) (cache w) "g/s.ogg" "build/g/s-low.ogg"
      (Base.options Samples.audio) = true
  ∧ let '(r, w') :=
      reencode_audio (Samples.transcoder ["build/g/s-low.ogg"])
                     Samples.audio w in
    r = Ok tt
    ∧ commands (trace w') = []
    ∧ records (trace w') = []
    ∧ cache w' !! ("g/s.ogg", "build/g/s-low.ogg") = None.
Proof. vm_compute. done. Qed.

(** The other path of the same loop: with nothing cached, each re-encode
    gets its own command and its own record. *)
Example audio_reencodes_from_scratch :
  let '(r, w') :=
    reencode_audio (Samples.transcoder ["build/g/s.mp3"; "build/g/s-low.ogg"])
                   Samples.audio Samples.fresh_world in
  r = Ok tt
  ∧ length (commands (trace w')) = 2%nat
  ∧ records (trace w')
    = [("g/s.ogg", "build/g/s-low.ogg"); ("g/s.ogg", "build/g/s.mp3")].
Proof. vm_compute. done. Qed.

End EncoderClaims.
(** ** Stepping through a worker *)

Module Steps.
Import TraceFacts.

(** Unfold the operations of the monad and of the world. *)
Ltac run_ops :=
  cbv [bind ret raise try_except lift needs_to_be_generated emit log im_save
       cache_picture get_MAXBLOCK set_MAXBLOCK area4 icc_profile_len del_key
       queue_put subprocess_run Image_open strip_exif command_fails];
  cbn [fs cache MAXBLOCK queue clock calls trace fst snd].

(** Split on the innermost thing the outcome still depends on. *)
Ltac split_inner :=
  match goal with
  | |- context [match ?x with _ => _ end] =>
      lazymatch x with
      | context [match _ with _ => _ end] => fail
      | _ => destruct x eqn:?
      end
  end.

Ltac run_cases :=
  repeat (split_inner;
          cbn [fs cache MAXBLOCK queue clock calls trace fst snd negb orb andb]).

(** The actions that lead from [tr] to [l]. *)
Ltac prefix_of l tr :=
  lazymatch l with
  | tr => constr:(@nil event)
  | ?e :: ?l' => let p := prefix_of l' tr in constr:(e :: p)
  end.

Ltac give_prefix :=
  lazymatch goal with
  | |- ∃ evs, ?l = (evs ++ ?tr)%list ∧ _ =>
      let p := prefix_of l tr in exists p; split; [reflexivity|]
  end.

Lemma n_saves_app evs evs' : n_saves (evs ++ evs') = (n_saves evs + n_saves evs')%nat.
Proof. induction evs as [|[] evs IH]; simpl; lia. Qed.

Lemma n_records_app evs evs' :
  n_records (evs ++ evs') = (n_records evs + n_records evs')%nat.
Proof. induction evs as [|[] evs IH]; simpl; lia. Qed.

Lemma n_runs_app evs evs' : n_runs (evs ++ evs') = (n_runs evs + n_runs evs')%nat.
Proof. induction evs as [|[] evs IH]; simpl; lia. Qed.

Lemma n_runs_ok_app evs evs' :
  n_runs_ok (evs ++ evs') = (n_runs_ok evs + n_runs_ok evs')%nat.
Proof.
  induction evs as [|[] evs IH]; simpl; try lia.
  destruct (Z.eqb _ _); simpl; lia.
Qed.

Lemma records_app evs evs' : records (evs ++ evs') = (records evs ++ records evs')%list.
Proof. apply omap_app. Qed.

Lemma saved_app evs evs' : saved (evs ++ evs') = (saved evs ++ saved evs')%list.
Proof. apply omap_app. Qed.

Lemma checked_app evs evs' : checked (evs ++ evs') = (checked evs ++ checked evs')%list.
Proof. apply omap_app. Qed.

#[global] Instance grows_preorder : PreOrder grows.
Proof. split; unfold grows; [intros w|intros w1 w2 w3 ? ?]; lia. Qed.

#[global] Instance same_state_preorder : PreOrder same_state.
Proof.
  split; [done|].
  intros w1 w2 w3 (?&?&?&?&?&?) (?&?&?&?&?&?). repeat split; congruence.
Qed.

(** Walk through the structure of a computation, leaving its primitive
    steps to [leaf]. *)
Ltac preserves_with leaf :=
  repeat (lazymatch goal with
  | |- preserves _ (bind _ _) => apply preserves_bind; [apply _| |intros ?]
  | |- preserves _ (ret _) => apply preserves_ret, _
  | |- preserves _ (raise _) => apply preserves_raise, _
  | |- preserves _ (lift _) => apply preserves_lift, _
  | |- preserves _ (del_key _ _) => apply preserves_del_key, _
  | |- preserves _ (for_in _ _ _) => apply preserves_for_in; [apply _|intros ? ?]
  | |- preserves _ (pool_map _ _ _) => apply preserves_pool_map; [apply _|intros ?]
  | |- preserves _ (for_each _ _) => apply preserves_for_each; [apply _|intros ?]
  | |- preserves _ (try_except _ _) =>
      apply preserves_try_except;
      [apply _|
      |let e := fresh "e" in let h := fresh "h" in let H := fresh "H" in
       intros e h H; destruct e; simplify_eq H; intros <-]
  | |- preserves _ (if ?b then _ else _) => destruct b
  | |- preserves _ (match ?x with _ => _ end) => destruct x
  | |- preserves _ _ => leaf
  end; cbn beta iota).

End Steps.

Module RenderLaws.
Import Steps TraceFacts.

Section Body.
Context (E : externals) (base : Base.t) (img : image).

(** One variant costs at most two calls of the encoder. *)
Lemma render_thumbnail_saves th params w :
  (n_saves (trace (render_thumbnail E base img th params w).2)
   ≤ n_saves (trace w) + 2)%nat.
Proof.
  destruct w as [f c mb q ck n tr]. unfold render_thumbnail.
  run_ops. run_cases. all: simpl; lia.
Qed.

Lemma prepare_saves w :
  n_saves (trace (prepare E base w).2) = n_saves (trace w).
Proof.
  destruct w as [f c mb q ck n tr]. unfold prepare, reorient.
  run_ops. run_cases. all: reflexivity.
Qed.

Lemma render_loop_saves ts params w :
  (n_saves (trace (for_in ts params (render_thumbnail E base img) w).2)
   ≤ n_saves (trace w) + 2 * length ts)%nat.
Proof.
  revert params w. induction ts as [|th ts IH]; intros params w; simpl; [lia|].
  unfold bind at 1.
  pose proof (render_thumbnail_saves th params w) as Hth.
  destruct (render_thumbnail E base img th params w) as [[[[|r] params']|e] w1];
    simpl in *; [|lia..].
  specialize (IH params' w1). lia.
Qed.

(** Records are made for this asset, after a successful save of the
    same destination. *)
Lemma render_thumbnail_records th params w :
  ∃ evs, trace (render_thumbnail E base img th params w).2 = (evs ++ trace w)%list
         ∧ records_follow_saves (Base.filepath base) evs.
Proof.
  destruct w as [f c mb q ck n tr]. unfold render_thumbnail.
  run_ops. run_cases.
  all: give_prefix; intros s d Hin; simpl in Hin.
  all: try (by apply elem_of_nil in Hin).
  all: apply list_elem_of_singleton in Hin as [= -> ->]; split; [done|];
    simpl; by left.
Qed.

Lemma render_thumbnail_grows th params :
  preserves grows (render_thumbnail E base img th params).
Proof.
  intros [f c mb q ck n tr]. unfold grows, render_thumbnail.
  run_ops. run_cases. all: simpl; lia.
Qed.

(** A variant that does not raise has been checked once, and the loop
    goes on. *)
Lemma render_thumbnail_checked th params w :
  match render_thumbnail E base img th params w with
  | (Ok (c, _), w') =>
      c = Next
      ∧ ∃ evs, trace w' = (evs ++ trace w)%list
               ∧ checked evs = [build_path (Thumbnail.filepath th)]
  | (Raise _, _) => True
  end.
Proof.
  destruct w as [f c mb q ck n tr]. unfold render_thumbnail.
  run_ops. run_cases. all: try exact I.
  all: split; [reflexivity|]; give_prefix; reflexivity.
Qed.

Lemma render_loop_checked ts params w :
  match for_in ts params (render_thumbnail E base img) w with
  | (Ok _, w') =>
      ∃ evs, trace w' = (evs ++ trace w)%list
             ∧ checked evs
               = reverse ((λ th, build_path (Thumbnail.filepath th)) <$> ts)
  | (Raise _, _) => True
  end.
Proof.
  revert params w. induction ts as [|th ts IH]; intros params w; simpl.
  { by exists []. }
  unfold bind at 1.
  pose proof (render_thumbnail_checked th params w) as Hth.
  destruct (render_thumbnail E base img th params w) as [[[c params']|e] w1];
    [|done].
  destruct Hth as (-> & evs1 & Ht1 & Hc1).
  specialize (IH params' w1).
  destruct (for_in ts params' _ w1) as [[r|e] w2]; [|done].
  destruct IH as (evs & Ht & Hc).
  exists (evs ++ evs1)%list. split.
  - by rewrite Ht, Ht1, (assoc_L app).
  - by rewrite checked_app, Hc, Hc1, reverse_cons.
Qed.

End Body.

#[global] Instance recording_preorder src : PreOrder (recording src).
Proof.
  split.
  - intros w. exists []. split; [done|]. intros s d Hin.
    by apply elem_of_nil in Hin.
  - intros w1 w2 w3 (evs & Ht & Hevs) (evs' & Ht' & Hevs').
    exists (evs' ++ evs)%list. rewrite Ht', Ht, (assoc_L app).
    split; [done|]. intros s d. rewrite records_app, saved_app, !elem_of_app.
    intros [Hin|Hin];
      [destruct (Hevs' _ _ Hin) as [-> ?]|destruct (Hevs _ _ Hin) as [-> ?]];
      (split; [done|]); [by left|by right].
Qed.

(** Preparing changes nothing but the trace, to which it adds log entries
    and the opening of the source. *)
Lemma prepare_frame E base w :
  same_state w (prepare E base w).2
  ∧ ∃ evs, trace (prepare E base w).2 = (evs ++ trace w)%list
           ∧ Forall is_preparing evs.
Proof.
  destruct w as [f c mb q ck n tr]. unfold prepare, reorient.
  run_ops. run_cases.
  all: split; [done|]; give_prefix; repeat constructor.
Qed.

Lemma preparing_silent evs :
  Forall is_preparing evs →
  checked evs = [] ∧ records evs = [] ∧ saved evs = [] ∧ n_saves evs = 0%nat.
Proof.
  induction 1 as [|e evs He _ IH]; [done|].
  destruct e; try done; simpl; apply IH.
Qed.

(** X7: whatever the encoder does, the render worker calls [im.save] at
    most twice per variant of the asset. *)
Theorem render_thumbnails_saves_bound (E : externals) (base : Base.t) (w : world) :
  (n_saves (trace (render_thumbnails E base w).2)
   ≤ n_saves (trace w) + 2 * length (Base.thumbnails base))%nat.
Proof.
  unfold render_thumbnails, bind at 1.
  pose proof (prepare_saves E base w) as Hprep.
  destruct (prepare E base w) as [[[img params]|e] w1]; simpl in *; [|lia].
  unfold bind at 1.
  pose proof (render_loop_saves E base img (values (Base.thumbnails base))
                params w1) as Hloop.
  unfold values in Hloop. rewrite length_fmap in Hloop.
  destruct (for_in _ _ _ w1) as [[r|e] w2]; simpl in *; lia.
Qed.

(** X8: every cache record the render worker makes is made for its own
    asset and for a destination it has saved successfully before. *)
Theorem render_thumbnails_records_follow_saves (E : externals) (base : Base.t)
    (w : world) :
  ∃ evs, trace (render_thumbnails E base w).2 = (evs ++ trace w)%list
         ∧ records_follow_saves (Base.filepath base) evs.
Proof.
  change (recording (Base.filepath base) w (render_thumbnails E base w).2).
  revert w. change (preserves (recording (Base.filepath base))
                              (render_thumbnails E base)).
  unfold render_thumbnails.
  apply preserves_bind; [apply _| |intros [img params]].
  { intros w. destruct (prepare_frame E base w) as (_ & evs & Ht & Hevs).
    exists evs. split; [done|]. intros s d Hin.
    apply preparing_silent in Hevs as (_ & Hrec & _).
    rewrite Hrec in Hin. by apply elem_of_nil in Hin. }
  apply preserves_bind; [apply _| |intros _].
  { apply preserves_for_in; [apply _|]. intros th params' w.
    apply render_thumbnail_records. }
  intros w. exists [EPut (Some 1)]. split; [done|].
  intros s d Hin. by apply elem_of_nil in Hin.
Qed.

(** X6: a render worker that returns has checked every variant of the
    asset against the cache exactly once, in the order of the asset's
    variants: the loop is never left early. *)
Theorem render_thumbnails_checks_every_variant (E : externals) (base : Base.t)
    (w w' : world) :
  render_thumbnails E base w = (Ok tt, w') →
  ∃ evs, trace w' = (evs ++ trace w)%list
         ∧ reverse (checked evs)
           = (λ th, build_path (Thumbnail.filepath th))
               <$> values (Base.thumbnails base).
Proof.
  unfold render_thumbnails, bind at 1.
  destruct (prepare_frame E base w) as (_ & evs0 & Ht0 & Hevs0).
  apply preparing_silent in Hevs0 as (Hc0 & _).
  destruct (prepare E base w) as [[[img params]|e] w1]; [|done].
  unfold bind at 1.
  pose proof (render_loop_checked E base img (values (Base.thumbnails base))
                params w1) as Hloop.
  destruct (for_in _ _ _ w1) as [[r|e] w2]; [|done].
  destruct Hloop as (evs & Ht & Hc). intros [= <-].
  exists (EPut (Some 1) :: evs ++ evs0)%list. simpl in *. split.
  - by rewrite Ht, Ht0, (assoc_L app).
  - change (EPut (Some 1) :: evs ++ evs0)%list
      with ([EPut (Some 1)] ++ evs ++ evs0)%list.
    rewrite !checked_app, Hc, Hc0. simpl.
    by rewrite app_nil_r, reverse_involutive.
Qed.

Lemma render_thumbnails_checks_every_variant_witness :
  ∃ evs, trace (render_thumbnails Samples.reliable Samples.photo_a
                                  Samples.half_built).2
         = (evs ++ trace Samples.half_built)%list
         ∧ reverse (checked evs) = ["build/g/a-small.jpg"; "build/g/a-wide.jpg"].
Proof.
  apply (render_thumbnails_checks_every_variant Samples.reliable Samples.photo_a
           Samples.half_built).
  vm_compute. reflexivity.
Defined.

Section Failures.
Context (E : externals) (base : Base.t) (img : image) (params : dict).
Context (thumbnail : Thumbnail.t) (im : image).

Let src := Base.filepath base.
Let dst := build_path (Thumbnail.filepath thumbnail).

(** X10: when the first save of a variant raises [TypeError], a warning is
    logged and the save is retried once without the EXIF data; a success
    is recorded with the reduced parameters, which the following variants
    inherit; a failure of the retry leaves the worker.  Parameters without
    EXIF data make the work-around itself raise [KeyError], and no second
    save is tried.  [im] is the image the copy and the resize, which did
    not fail, hand to the save. *)
Theorem type_error_drops_exif (w : world) :
  Cache.needs_to_be_generated (fs w) (cache w) src dst params = true →
  ext_copy E img = None →
  resized E (Thumbnail.size thumbnail) img = inr im →
  ext_save E (calls w) (MAXBLOCK w) im dst params = Some TypeError →
  let warned :=
    ELog WARNING
         "Original image contains EXIF metadata that Pillow < 7.2.0 cannot handle."
         [src]
    :: ESave dst im params (Some TypeError)
    :: attempt_events base thumbnail in
  render_thumbnail E base img thumbnail params w
  = match params !! "exif" with
    | None =>
        (Raise KeyError,
         World (fs w) (cache w) (MAXBLOCK w) (queue w) (clock w) (S (calls w))
               (warned ++ trace w))
    | Some _ =>
        let params' := delete "exif" params in
        let retry := ext_save E (S (calls w)) (MAXBLOCK w) im dst params' in
        let evs := ESave dst im params' retry :: warned in
        match retry with
        | None =>
            (Ok (Next, params'),
             recorded base params' thumbnail im (MAXBLOCK w)
                      (S (S (calls w))) evs w)
        | Some e =>
            (Raise e,
             World (fs w) (cache w) (MAXBLOCK w) (queue w) (clock w)
                   (S (S (calls w))) (evs ++ trace w))
        end
    end.
Proof.
  intros Hdirty Hcopy Hresize Hsave. destruct w as [f c mb q ck n tr].
  simpl in *.
  unfold render_thumbnail, bind at 1, needs_to_be_generated. simpl.
  fold src dst. rewrite Hdirty, Hcopy. simpl.
  unfold recorded, attempt_events, resize_events.
  fold src dst. unfold resized, resizes, box in *.
  destruct (Thumbnail.size thumbnail) as [width height]. simpl in *.
  destruct (negb (dim_truthy width) || negb (dim_truthy height)); simpl in *;
    unfold bind, try_except, im_save, emit, log, ret, raise, lift,
      cache_picture, del_key; simpl;
    first [rewrite Hresize|injection Hresize as ->]; simpl;
    rewrite Hsave; simpl;
    (destruct (params !! "exif"); simpl; [|done]);
    match goal with |- context [ext_save E (S n) mb ?i dst ?p] =>
      destruct (ext_save E (S n) mb i dst p) end; done.
Qed.

(** X11: a save that raises anything but [OSError] or [TypeError] is not
    retried: the exception leaves the worker after this single call, and
    nothing is written or recorded.  [im] is the image the copy and the
    resize, which did not fail, hand to the save. *)
Theorem other_errors_not_retried (w : world) (e : exn) :
  Cache.needs_to_be_generated (fs w) (cache w) src dst params = true →
  ext_copy E img = None →
  resized E (Thumbnail.size thumbnail) img = inr im →
  ext_save E (calls w) (MAXBLOCK w) im dst params = Some e →
  e ≠ OSError → e ≠ TypeError →
  render_thumbnail E base img thumbnail params w
  = (Raise e,
     World (fs w) (cache w) (MAXBLOCK w) (queue w) (clock w) (S (calls w))
           (ESave dst im params (Some e) :: attempt_events base thumbnail
            ++ trace w)).
Proof.
  intros Hdirty Hcopy Hresize Hsave Hos Hty.
  destruct w as [f c mb q ck n tr]. simpl in *.
  unfold render_thumbnail, bind at 1, needs_to_be_generated. simpl.
  fold src dst. rewrite Hdirty, Hcopy. simpl.
  unfold attempt_events, resize_events.
  fold src dst. unfold resized, resizes, box in *.
  destruct (Thumbnail.size thumbnail) as [width height]. simpl in *.
  destruct (negb (dim_truthy width) || negb (dim_truthy height)); simpl in *;
    unfold bind, try_except, im_save, emit, log, ret, lift; simpl;
    first [rewrite Hresize|injection Hresize as ->]; simpl;
    rewrite Hsave; by destruct e.
Qed.

End Failures.

Lemma type_error_drops_exif_witness :
  ∃ w', render_thumbnail Cases.old_pillow Cases.tagged_t Cases.tagged
          Cases.small_t Cases.tagged_params Cases.tagged_world
        = (Ok (Next, delete "exif" Cases.tagged_params), w')
        ∧ calls w' = 2%nat.
Proof.
  assert (Hdirty :
    Cache.needs_to_be_generated (fs Cases.tagged_world)
      (cache Cases.tagged_world) (Base.filepath Cases.tagged_t)
      (build_path (Thumbnail.filepath Cases.small_t)) Cases.tagged_params
    = true) by (vm_compute; reflexivity).
  assert (Hcopy : ext_copy Cases.old_pillow Cases.tagged = None)
    by reflexivity.
  assert (Hresize :
    resized Cases.old_pillow (Thumbnail.size Cases.small_t) Cases.tagged
    = inr Cases.tagged) by (vm_compute; reflexivity).
  assert (Hsave :
    ext_save Cases.old_pillow (calls Cases.tagged_world)
      (MAXBLOCK Cases.tagged_world) Cases.tagged
      (build_path (Thumbnail.filepath Cases.small_t)) Cases.tagged_params
    = Some TypeError) by (vm_compute; reflexivity).
  assert (Hexif : Cases.tagged_params !! "exif" = Some (VExif [(274, 6)]))
    by (vm_compute; reflexivity).
  assert (Hretry :
    ext_save Cases.old_pillow (S (calls Cases.tagged_world))
      (MAXBLOCK Cases.tagged_world) Cases.tagged
      (build_path (Thumbnail.filepath Cases.small_t))
      (delete "exif" Cases.tagged_params)
    = None) by (vm_compute; reflexivity).
  pose proof (type_error_drops_exif Cases.old_pillow Cases.tagged_t Cases.tagged
                Cases.tagged_params Cases.small_t Cases.tagged
                Cases.tagged_world Hdirty Hcopy Hresize Hsave) as H.
  cbv zeta in H. rewrite Hexif, Hretry in H.
  eexists. split; [exact H|reflexivity].
Defined.

Lemma other_errors_not_retried_witness :
  (render_thumbnail Samples.interrupted Samples.photo_b Samples.photo
     Samples.small_b Samples.photo_params Samples.fresh_world).1
  = Raise KeyboardInterrupt.
Proof.
  assert (Hdirty :
    Cache.needs_to_be_generated (fs Samples.fresh_world)
      (cache Samples.fresh_world) (Base.filepath Samples.photo_b)
      (build_path (Thumbnail.filepath Samples.small_b)) Samples.photo_params
    = true) by (vm_compute; reflexivity).
  assert (Hcopy : ext_copy Samples.interrupted Samples.photo = None)
    by reflexivity.
  assert (Hresize :
    resized Samples.interrupted (Thumbnail.size Samples.small_b) Samples.photo
    = inr Samples.photo) by (vm_compute; reflexivity).
  assert (Hsave :
    ext_save Samples.interrupted (calls Samples.fresh_world)
      (MAXBLOCK Samples.fresh_world) Samples.photo
      (build_path (Thumbnail.filepath Samples.small_b)) Samples.photo_params
    = Some KeyboardInterrupt) by (vm_compute; reflexivity).
  rewrite (other_errors_not_retried Samples.interrupted Samples.photo_b
             Samples.photo Samples.photo_params Samples.small_b Samples.photo
             Samples.fresh_world KeyboardInterrupt Hdirty Hcopy Hresize Hsave);
    [reflexivity|discriminate|discriminate].
Defined.

End RenderLaws.
(** ** The sequential encoders *)

Module EncoderFacts.
Import Steps TraceFacts.

#[global] Instance encoding_preorder : PreOrder encoding.
Proof.
  split.
  - intros w. split; [done|]. split; [done|]. by exists [].
  - intros w1 w2 w3 (Hq & Hmb & evs & Ht & Hevs) (Hq' & Hmb' & evs' & Ht' & Hevs').
    split; [congruence|]. split; [congruence|].
    exists (evs' ++ evs)%list. rewrite Ht', Ht, (assoc_L app).
    split; [done|]. by apply Forall_app.
Qed.

Ltac encoding_leaf :=
  intros [? ? ? ? ? ? ?]; unfold encoding; run_ops; run_cases;
  (split; [done|]); (split; [done|]); give_prefix; repeat constructor.

Lemma encoding_render_video E base : preserves encoding (render_video E base).
Proof.
  unfold render_video, reencode_video, collect_thumbnail.
  preserves_with encoding_leaf.
Qed.

Lemma encoding_reencode_audio E base : preserves encoding (reencode_audio E base).
Proof. unfold reencode_audio. preserves_with encoding_leaf. Qed.

(** *** Relations that count *)

Section Graded.
Context (R : nat → relation world).
Hypothesis R_refl : ∀ w, R 0 w w.
Hypothesis R_trans : ∀ n m w1 w2 w3, R n w1 w2 → R m w2 w3 → R (n + m) w1 w3.
Hypothesis R_mono : ∀ n m w w', (n ≤ m)%nat → R n w w' → R m w w'.

Lemma graded_bind {A B} n m (c : M A) (k : A → M B) w :
  (∀ w, R n w (c w).2) → (∀ a w, R m w (k a w).2) → R (n + m) w (bind c k w).2.
Proof.
  intros Hc Hk. unfold bind. specialize (Hc w).
  destruct (c w) as [[a|e] w1]; simpl in *.
  - eapply R_trans; [done|]. apply Hk.
  - eapply R_mono; [|done]. lia.
Qed.

Lemma graded_for_in {X S T} (xs : list X) (s : S)
    (body : X → S → M (ctl T * S)) w :
  (∀ x s w, R 1 w (body x s w).2) →
  R (length xs) w (for_in xs s body w).2.
Proof.
  intros Hbody. revert s w. induction xs as [|x xs IH]; intros s w; simpl.
  { apply R_refl. }
  unfold bind. specialize (Hbody x s w).
  destruct (body x s w) as [[[[|r] s']|e] w1]; simpl in *.
  - apply (R_trans 1 (length xs) _ _ _ Hbody). apply IH.
  - eapply R_mono; [|done]. lia.
  - eapply R_mono; [|done]. lia.
Qed.

End Graded.

Lemma tally_refl w : tally 0 w w.
Proof. by exists []. Qed.

Lemma tally_trans n m w1 w2 w3 : tally n w1 w2 → tally m w2 w3 → tally (n + m) w1 w3.
Proof.
  intros (evs & Ht & He & Hn) (evs' & Ht' & He' & Hn').
  exists (evs' ++ evs)%list. rewrite Ht', Ht, (assoc_L app).
  rewrite n_records_app, n_runs_ok_app, n_runs_app. split; [done|]. lia.
Qed.

Lemma tally_mono n m w w' : (n ≤ m)%nat → tally n w w' → tally m w w'.
Proof. intros Hnm (evs & Ht & He & Hn). exists evs. split; [done|]. lia. Qed.

Lemma vtally_refl w : vtally 0 w w.
Proof. by exists []. Qed.

Lemma vtally_trans n m w1 w2 w3 :
  vtally n w1 w2 → vtally m w2 w3 → vtally (n + m) w1 w3.
Proof.
  intros (evs & Ht & He & Hn) (evs' & Ht' & He' & Hn').
  exists (evs' ++ evs)%list. rewrite Ht', Ht, (assoc_L app).
  rewrite n_records_app, n_runs_ok_app, n_runs_app. split; [done|]. lia.
Qed.

Lemma vtally_mono n m w w' : (n ≤ m)%nat → vtally n w w' → vtally m w w'.
Proof. intros Hnm (evs & Ht & He & Hn). exists evs. split; [done|]. lia. Qed.

Ltac tally_leaf :=
  intros [? ? ? ? ? ? ?]; unfold tally, vtally; run_ops; cbv [negb]; run_cases;
  give_prefix; simpl;
  repeat match goal with H : Z.eqb ?x 0 = _ |- _ => rewrite H end;
  split; (lia || done).

Lemma n_runs_failed_app evs evs' :
  n_runs_failed (evs ++ evs') = (n_runs_failed evs + n_runs_failed evs')%nat.
Proof.
  induction evs as [|[] evs IH]; simpl; try lia.
  destruct (Z.eqb _ _); simpl; lia.
Qed.

Lemma checks_count evs :
  Forall is_check evs →
  n_runs evs = 0%nat ∧ n_records evs = 0%nat ∧ n_runs_failed evs = 0%nat.
Proof. induction 1 as [|[] evs He _ IH]; try done. Qed.

Lemma records_count evs :
  Forall is_record evs → n_runs evs = 0%nat ∧ n_runs_failed evs = 0%nat.
Proof. induction 1 as [|[] evs He _ IH]; try done. Qed.

Ltac extends_leaf :=
  intros [? ? ? ? ? ? ?]; unfold extends; run_ops; run_cases;
  give_prefix; repeat constructor.

Lemma collect_checks E base ts s :
  preserves (extends is_check) (for_in ts s (collect_thumbnail E base)).
Proof. unfold collect_thumbnail. preserves_with extends_leaf. Qed.

(** The loop [for thumbnail in uncached] of [render_video]. *)
Lemma record_loop_records base (filepath : option path) (uncached : list Thumbnail.t) :
  preserves (extends is_record)
    (for_in uncached tt (λ _ _,
       match filepath with
       | Some filepath =>
           do cache_picture (Base.filepath base) filepath (Base.options base) then
           ret (@Next unit, tt)
       | None => raise ValueError
       end)).
Proof. preserves_with extends_leaf. Qed.

(** What running one command adds to the trace. *)
Lemma command_fails_trace E command options w :
  match command_fails E command options w with
  | (Ok true, w') =>
      ∃ c returncode, trace w' = ERun c returncode :: trace w ∧ returncode ≠ 0
  | (Ok false, w') => ∃ c, trace w' = ERun c 0 :: trace w
  | (Raise _, w') => trace w' = trace w
  end.
Proof.
  destruct w as [f c mb q ck n tr]. run_ops. run_cases; try done.
  all: match goal with H : ext_run _ _ _ = inr (?z, _) |- _ =>
         destruct (Z.eqb_spec z 0) as [->|?] end; simpl in *; try done; eauto.
Qed.

Lemma failure_last_none evs : n_runs_failed evs = 0%nat → failure_last evs.
Proof. by left. Qed.

Lemma failure_last_app evs old :
  failure_last evs → n_runs_failed old = 0%nat → failure_last (evs ++ old).
Proof.
  intros [Hnone|(msg & args & c & rc & rest & -> & Hrc & Hrest)] Hold.
  - left. rewrite n_runs_failed_app. lia.
  - right. exists msg, args, c, rc, (rest ++ old)%list.
    split; [done|]. split; [done|]. rewrite n_runs_failed_app. lia.
Qed.

Lemma for_in_stops_on_failure {X S T} (xs : list X) (s : S)
    (body : X → S → M (ctl T * S)) :
  (∀ x s, stops_on_failure goes_on (body x s)) →
  stops_on_failure goes_on (for_in xs s body).
Proof.
  intros Hbody. revert s. induction xs as [|x xs IH]; intros s w; simpl.
  { by exists []. }
  unfold bind. destruct (Hbody x s w) as (evs1 & Ht1 & H1).
  destruct (body x s w) as [[[[|r] s']|e] w1]; simpl in *.
  - destruct (IH s' w1) as (evs & Ht & H).
    exists (evs ++ evs1)%list. rewrite Ht, Ht1, (assoc_L app).
    split; [done|].
    destruct (for_in xs s' body w1) as [[a|e] w2]; simpl in *.
    + destruct (goes_on a).
      * rewrite n_runs_failed_app. lia.
      * by apply failure_last_app.
    + rewrite n_runs_failed_app. lia.
  - by exists evs1.
  - by exists evs1.
Qed.

Ltac failure_leaf :=
  intros [? ? ? ? ? ? ?]; run_ops; cbv [negb]; run_cases;
  give_prefix; simpl;
  repeat match goal with H : Z.eqb ?x 0 = _ |- _ => rewrite H end;
  first
    [ reflexivity
    | left; reflexivity
    | right; do 5 eexists; split; [reflexivity|];
      split; [by apply Z.eqb_neq|reflexivity] ].

End EncoderFacts.

Module EncoderLaws.
Import Steps TraceFacts EncoderFacts.

(** X13: the sequential encoders only log, check the cache, run external
    commands and make records; they put nothing on the progress queue,
    leave the encoder buffer alone and save no image. *)
Theorem encoders_only_encode (E : externals) (base : Base.t) (w : world) :
  encoding w (render_video E base w).2 ∧ encoding w (reencode_audio E base w).2.
Proof. split; [apply encoding_render_video|apply encoding_reencode_audio]. Qed.

(** X14: for an audio asset at most one command is run per re-encode, and
    the records made are as many as the commands that exited with status
    zero: no record without a successful command, no successful command
    without its record. *)
Theorem reencode_audio_tally (E : externals) (base : Base.t) (w : world) :
  tally (length (Base.reencodes base)) w (reencode_audio E base w).2.
Proof.
  unfold reencode_audio.
  apply (graded_bind tally tally_trans tally_mono 0 (length (Base.reencodes base))).
  { clear w. tally_leaf. }
  intros _ w'. destruct (Base.reencodes base) as [|r rs] eqn:Hr.
  { apply tally_refl. }
  rewrite <-Hr.
  replace (length (Base.reencodes base))
    with (length (values (Base.reencodes base)) + 0)%nat
    by (unfold values; rewrite length_fmap; lia).
  apply (graded_bind tally tally_trans tally_mono).
  - intros w1. apply (graded_for_in tally tally_refl tally_trans tally_mono).
    intros reencode [] w2. revert w2. tally_leaf.
  - intros _ w1. apply tally_refl.
Qed.

(** X15: for a video at most one command is run per re-encode, and at most
    one more for all the thumbnails together; no record is made unless a
    command exited with status zero. *)
Theorem render_video_tally (E : externals) (base : Base.t) (w : world) :
  vtally (length (Base.reencodes base) + 1) w (render_video E base w).2.
Proof.
  unfold render_video.
  apply (graded_bind vtally vtally_trans vtally_mono 0 _).
  { clear w. tally_leaf. }
  intros _ w0. clear w.
  apply (graded_bind vtally vtally_trans vtally_mono _ 1).
  { intros w. destruct (Base.reencodes base) as [|r rs] eqn:Hr.
    { apply vtally_refl. }
    rewrite <-Hr.
    replace (length (Base.reencodes base))
      with (length (values (Base.reencodes base)))
      by (unfold values; by rewrite length_fmap).
    apply (graded_for_in vtally vtally_refl vtally_trans vtally_mono).
    intros reencode s w2. revert w2. unfold reencode_video. tally_leaf. }
  intros [[|r] filepath] w; [|apply (vtally_mono 0); [lia|apply vtally_refl]].
  destruct (Base.thumbnails base) as [|t ts] eqn:Hts;
    [apply (vtally_mono 0); [lia|apply vtally_refl]|].
  rewrite <-Hts. unfold bind at 1.
  pose proof (collect_checks E base (values (Base.thumbnails base))
                (filepath, EmptyString, []) w) as (evs0 & Ht0 & Hevs0).
  apply checks_count in Hevs0 as (Hruns0 & Hrecs0 & _).
  destruct (for_in _ _ _ w) as [[[c [[fp command] uncached]]|e] w1];
    simpl in *.
  2: { exists evs0. split; [done|]. split; [done|]. lia. }
  destruct uncached as [|u us].
  { exists evs0. split; [done|]. split; [done|]. lia. }
  unfold bind at 1.
  pose proof (command_fails_trace E
                (("{binary} -loglevel {loglevel} -y -i "
                  +:+ ext_quote E (Base.filepath base)) +:+ command)
                (Base.options base) w1) as Hcmd.
  destruct (command_fails E _ _ w1) as [[[|]|e] w2]; cbn beta iota.
  - destruct Hcmd as (cmd & rc & Ht & Hrc).
    exists (ELog ERROR "An error occured while rendering thumbnails"
                 [Base.filepath base] :: ERun cmd rc :: evs0).
    simpl. rewrite Ht, Ht0. split; [done|].
    destruct (Z.eqb rc 0); simpl; split; (done || lia).
  - destruct Hcmd as (cmd & Ht).
    unfold bind at 1.
    pose proof (record_loop_records base fp (u :: us) w2) as (evs2 & Ht2 & Hevs2).
    apply records_count in Hevs2 as (Hruns2 & _).
    destruct (for_in (u :: us) tt _ w2) as [[r|e] w3]; cbn [fst snd] in *;
      simpl; exists (evs2 ++ ERun cmd 0 :: evs0)%list;
      rewrite Ht2, Ht, Ht0, <-(assoc_L app); (split; [done|]);
      rewrite n_runs_ok_app, n_runs_app; simpl; split; lia.
  - exists evs0. simpl. rewrite Hcmd. split; [done|]. split; [done|]. lia.
Qed.

(** X16: an audio command that exits with another status than zero ends
    the work on the asset: the only action after it is the error logged
    for it, so that no later re-encode is checked, run or recorded. *)
Theorem reencode_audio_stops_on_failure (E : externals) (base : Base.t)
    (w : world) :
  ∃ evs, trace (reencode_audio E base w).2 = (evs ++ trace w)%list
         ∧ failure_last evs.
Proof.
  unfold reencode_audio, bind at 1, log, emit. cbn beta iota.
  set (w0 := World _ _ _ _ _ _ _).
  destruct (Base.reencodes base) as [|r rs] eqn:Hr.
  { eexists [_]. split; [by destruct w|]. by left. }
  rewrite <-Hr. unfold bind at 1.
  lazymatch goal with |- context [for_in ?xs ?s ?body w0] =>
    assert (Hloop : stops_on_failure goes_on (for_in xs s body)) end.
  { apply for_in_stops_on_failure. intros reencode [].
    unfold goes_on. failure_leaf. }
  destruct (Hloop w0) as (evs & Ht & Hevs).
  destruct (for_in _ _ _ w0) as [[a|e] w1]; simpl in *;
    exists (evs ++ [ELog DEBUG "Rendering reencodes" [Base.filepath base]])%list;
    rewrite Ht, <-(assoc_L app); (split; [by destruct w|]);
    (apply failure_last_app; [|done]).
  - destruct (goes_on a); [by left|done].
  - by left.
Qed.

(** X17: a video command that exits with another status than zero ends the
    work on the asset, for a re-encode as for the thumbnails: the only
    action after it is the error logged for it.  In particular the
    thumbnails are not attempted after a failed re-encode. *)
Theorem render_video_stops_on_failure (E : externals) (base : Base.t)
    (w : world) :
  ∃ evs, trace (render_video E base w).2 = (evs ++ trace w)%list
         ∧ failure_last evs.
Proof.
  unfold render_video, bind at 1, log, emit. cbn beta iota.
  set (started := ELog DEBUG "Rendering thumbnails and reencodes"
                       [Base.filepath base]).
  set (w0 := World _ _ _ _ _ _ _).
  assert (Hw0 : trace w0 = ([started] ++ trace w)%list) by done.
  clearbody w0.
  set (loop := match Base.reencodes base with [] => _ | _ :: _ => _ end).
  assert (Hloop : stops_on_failure goes_on loop).
  { subst loop. destruct (Base.reencodes base); [intros w'; by exists []|].
    apply for_in_stops_on_failure. intros reencode fp.
    unfold reencode_video, goes_on. failure_leaf. }
  unfold bind at 1. destruct (Hloop w0) as (evs1 & Ht1 & H1).
  destruct (loop w0) as [[[[|r] fp]|e] w1]; simpl in H1, Ht1; cbn beta iota.
  2: { exists (evs1 ++ [started])%list. simpl.
       rewrite Ht1, Hw0, (assoc_L app). split; [done|].
       by apply failure_last_app. }
  2: { exists (evs1 ++ [started])%list. simpl.
       rewrite Ht1, Hw0, (assoc_L app). split; [done|].
       apply failure_last_app; [by left|done]. }
  assert (Hsofar : ∃ evs, trace w1 = (evs ++ trace w)%list
                          ∧ n_runs_failed evs = 0%nat).
  { exists (evs1 ++ [started])%list. rewrite Ht1, Hw0, (assoc_L app).
    split; [done|]. rewrite n_runs_failed_app. simpl. lia. }
  clear Ht1 H1 Hw0 Hloop. destruct Hsofar as (evs & Ht & Hnone).
  destruct (Base.thumbnails base) as [|t ts] eqn:Hts.
  { exists evs. simpl. split; [done|]. by left. }
  rewrite <-Hts. unfold bind at 1.
  pose proof (collect_checks E base (values (Base.thumbnails base))
                (fp, EmptyString, []) w1) as (evs2 & Ht2 & Hevs2).
  apply checks_count in Hevs2 as (_ & _ & Hnone2).
  destruct (for_in _ _ _ w1) as [[[c [[fp' command] uncached]]|e] w2];
    simpl in Ht2; cbn beta iota.
  2: { exists (evs2 ++ evs)%list. simpl. rewrite Ht2, Ht, (assoc_L app).
       split; [done|]. left. rewrite n_runs_failed_app. lia. }
  destruct uncached as [|u us].
  { exists (evs2 ++ evs)%list. simpl. rewrite Ht2, Ht, (assoc_L app).
    split; [done|]. left. rewrite n_runs_failed_app. lia. }
  unfold bind at 1.
  pose proof (command_fails_trace E
                (("{binary} -loglevel {loglevel} -y -i "
                  +:+ ext_quote E (Base.filepath base)) +:+ command)
                (Base.options base) w2) as Hcmd.
  destruct (command_fails E _ _ w2) as [[[|]|e] w3]; cbn beta iota.
  - destruct Hcmd as (cmd & rc & Ht3 & Hrc).
    exists (ELog ERROR "An error occured while rendering thumbnails"
                 [Base.filepath base] :: ERun cmd rc :: evs2 ++ evs)%list.
    simpl. rewrite Ht3, Ht2, Ht, (assoc_L app). split; [done|].
    right. do 5 eexists. split; [reflexivity|]. split; [done|].
    rewrite n_runs_failed_app. lia.
  - destruct Hcmd as (cmd & Ht3).
    unfold bind at 1.
    pose proof (record_loop_records base fp' (u :: us) w3) as (evs4 & Ht4 & Hevs4).
    apply records_count in Hevs4 as (_ & Hnone4).
    destruct (for_in (u :: us) tt _ w3) as [[r|e] w4]; cbn [fst snd] in *;
      simpl; exists (evs4 ++ ERun cmd 0 :: evs2 ++ evs)%list;
      rewrite Ht4, Ht3, Ht2, Ht, <-!(assoc_L app);
      (split; [simpl; by rewrite <-?(assoc_L app)|]);
      left; rewrite !n_runs_failed_app; simpl; rewrite n_runs_failed_app; lia.
  - exists (evs2 ++ evs)%list. simpl. rewrite Hcmd, Ht2, Ht, (assoc_L app).
    split; [done|]. left. rewrite n_runs_failed_app. lia.
Qed.

End EncoderLaws.
(** ** The coordinator, continued *)

Module PipelineLaws.
Import Steps TraceFacts PoolFacts ScanFacts ProgressFacts EncoderFacts RenderLaws.

#[global] Instance scanning_preorder : PreOrder scanning.
Proof.
  split.
  - intros w. repeat (split; [done|]). by exists [].
  - intros w1 w2 w3 (?&?&?&?& evs & Ht & Hevs) (?&?&?&?& evs' & Ht' & Hevs').
    repeat (split; [congruence|]).
    exists (evs' ++ evs)%list. rewrite Ht', Ht, (assoc_L app).
    split; [done|]. by apply Forall_app.
Qed.

Lemma scanning_noncached_images base : preserves scanning (noncached_images base).
Proof.
  unfold noncached_images, check_thumbnail.
  preserves_with ltac:(intros [? ? ? ? ? ? ?]; unfold scanning; run_ops; run_cases;
                       repeat (split; [done|]); give_prefix; repeat constructor).
Qed.

Lemma scanning_pool_map E bases :
  preserves scanning (pool_map E noncached_images bases).
Proof. apply preserves_pool_map; [apply _|]. apply scanning_noncached_images. Qed.

(** The scan worker raises nothing but the [OSError] of a source it
    cannot open, and raises it before doing anything. *)
Lemma noncached_images_raises base w :
  match noncached_images base w with
  | (Ok _, _) => readable (fs w) (Base.filepath base)
  | (Raise e, w') => e = OSError ∧ w' = w ∧ ¬ readable (fs w) (Base.filepath base)
  end.
Proof.
  destruct w as [f c mb q ck n tr].
  unfold noncached_images, bind at 1, Image_open, readable. simpl.
  destruct (f !! Base.filepath base) as [[t [img|]]|] eqn:Hopen.
  - unfold bind at 1, emit, ret at 1. simpl.
    unfold bind at 1. rewrite strip_exif_run.
    unfold bind at 1. rewrite check_thumbnails_run.
    destruct (existsb _ _); simpl; eauto.
  - split; [done|]. split; [done|]. by intros (t' & img & [=]).
  - split; [done|]. split; [done|]. by intros (t' & img & [=]).
Qed.

Lemma mapstar_unreadable bases w :
  (∃ base, base ∈ bases ∧ ¬ readable (fs w) (Base.filepath base)) →
  (mapstar noncached_images bases w).1 = Raise OSError.
Proof.
  revert w. induction bases as [|b bases IH]; intros w (bad & Hin & Hbad).
  { by apply elem_of_nil in Hin. }
  simpl. unfold bind at 1.
  pose proof (noncached_images_raises b w) as Hb.
  pose proof (scanning_noncached_images b w) as (Hfs & _).
  destruct (noncached_images b w) as [[r|e] w1]; simpl in *.
  - apply elem_of_cons in Hin as [->|Hin]; [done|].
    specialize (IH w1). unfold bind at 1.
    destruct (mapstar noncached_images bases w1) as [[rs|e] w2]; simpl in *.
    + exfalso. assert (Ok rs = Raise OSError :> result (list (option Base.t)));
        [|done].
      apply IH. exists bad. by rewrite Hfs.
    + apply IH. exists bad. by rewrite Hfs.
  - by destruct Hb as (-> & _).
Qed.

Lemma pool_map_unreadable E bases w :
  (∃ base, base ∈ bases ∧ ¬ readable (fs w) (Base.filepath base)) →
  (pool_map E noncached_images bases w).1 = Raise OSError.
Proof.
  intros Hbad. apply mapstar_unreadable in Hbad.
  pose proof (pool_map_result E noncached_images bases w) as Hpool.
  destruct (mapstar noncached_images bases w) as [[rs|e] w1]; [done|].
  simpl in Hbad. injection Hbad as ->.
  destruct Hpool as (w' & ->). done.
Qed.

(** X4: a registered image whose source cannot be opened makes the whole
    build raise [OSError] during the scan: nothing is rendered, encoded or
    recorded, no encoder or external command is called, and the cache is
    dumped as the last action. *)
Theorem unreadable_image_aborts_build (E : externals)
    (base_imgs base_vids base_audios : list (path * Base.t)) (w : world) :
  (∃ base, base ∈ values base_imgs ∧ ¬ readable (fs w) (Base.filepath base)) →
  ∃ w', main E base_imgs base_vids base_audios w = (Raise OSError, w')
        ∧ fs w' = fs w ∧ cache w' = cache w ∧ calls w' = calls w
        ∧ head (trace w') = Some EDump.
Proof.
  intros Hbad. unfold main, try_finally, cache_dump.
  unfold bind at 1, new_queue. unfold bind at 1, log, emit. cbn beta iota.
  set (w0 := World _ _ _ _ _ _ _).
  unfold bind at 1, phase, bind at 1.
  pose proof (pool_map_unreadable E (values base_imgs) w0 Hbad) as Hraise.
  pose proof (scanning_pool_map E (values base_imgs) w0) as (Hfs & Hc & _ & Hn & _).
  destruct (pool_map E noncached_images (values base_imgs) w0) as [r w1].
  simpl in Hraise. subst r. simpl in *.
  eexists. split; [reflexivity|]. by simpl.
Qed.

Lemma unreadable_image_aborts_build_witness :
  ∃ w', main Samples.reliable
             [("a", Samples.photo_a); ("m", Cases.missing)] [] []
             Samples.fresh_world
        = (Raise OSError, w')
        ∧ fs w' = fs Samples.fresh_world
        ∧ cache w' = cache Samples.fresh_world
        ∧ calls w' = calls Samples.fresh_world
        ∧ head (trace w') = Some EDump.
Proof.
  apply (unreadable_image_aborts_build Samples.reliable
           [("a", Samples.photo_a); ("m", Cases.missing)] [] []
           Samples.fresh_world).
  exists Cases.missing. split.
  - apply list_elem_of_In. right. by left.
  - intros (t & img & Hopen). vm_compute in Hopen. discriminate Hopen.
Defined.

(** The scan worker returns nothing for an asset whose variants are all
    cached. *)
Lemma noncached_images_clean base w :
  fully_cached w base → (noncached_images base w).1 = Ok None.
Proof.
  intros (t & img & Hopen & Hclean). destruct w as [f c mb q ck n tr].
  simpl in *.
  unfold noncached_images, bind at 1, Image_open. simpl. rewrite Hopen.
  unfold bind at 1, emit, ret at 1. simpl.
  unfold bind at 1. rewrite strip_exif_run.
  unfold bind at 1. rewrite check_thumbnails_run.
  fold (cache_params img (Base.options base)).
  match goal with |- context [existsb ?d ?l] =>
    assert (Hex : existsb d l = false) end.
  { apply not_true_is_false. intros (th & Hin & Hd)%existsb_exists.
    rewrite Hclean in Hd; [done|]. by apply list_elem_of_In. }
  by rewrite Hex.
Qed.

Lemma fully_cached_scanning w w' base :
  scanning w w' → fully_cached w base → fully_cached w' base.
Proof.
  intros (Hfs & Hc & _) (t & img & Hopen & Hclean).
  exists t, img. rewrite Hfs, Hc. done.
Qed.

Lemma mapstar_clean bases w :
  (∀ base, base ∈ bases → fully_cached w base) →
  ∃ rs, (mapstar noncached_images bases w).1 = Ok rs ∧ omap id rs = [].
Proof.
  revert w. induction bases as [|b bases IH]; intros w Hall; simpl.
  { by exists []. }
  unfold bind at 1.
  pose proof (noncached_images_clean b w (Hall b ltac:(by left))) as Hb.
  pose proof (scanning_noncached_images b w) as Hscan.
  destruct (noncached_images b w) as [r w1]. simpl in Hb, Hscan. subst r.
  destruct (IH w1) as (rs & Hrs & Hnone).
  { intros base Hin. eapply fully_cached_scanning; [done|].
    apply Hall. by right. }
  unfold bind at 1.
  destruct (mapstar noncached_images bases w1) as [r w2]. simpl in Hrs.
  subst r. by exists (None :: rs).
Qed.

Lemma pool_map_clean E bases w :
  (∀ base, base ∈ bases → fully_cached w base) →
  ∃ rs, (pool_map E noncached_images bases w).1 = Ok rs ∧ omap id rs = [].
Proof.
  intros Hall. destruct (mapstar_clean bases w Hall) as (rs & Hrs & Hnone).
  pose proof (pool_map_result E noncached_images bases w) as Hpool.
  destruct (mapstar noncached_images bases w) as [[rs'|e] w1]; [|done].
  simpl in Hrs. injection Hrs as ->. exists rs. by rewrite Hpool.
Qed.

Lemma scanning_saves w w' : scanning w w' → n_saves (trace w') = n_saves (trace w).
Proof.
  intros (_ & _ & _ & _ & evs & -> & Hevs). rewrite n_saves_app.
  assert (n_saves evs = 0%nat); [|lia].
  induction Hevs as [|[] evs He _ IH]; done.
Qed.

Lemma encoding_saves w w' : encoding w w' → n_saves (trace w') = n_saves (trace w).
Proof.
  intros (_ & _ & evs & -> & Hevs). rewrite n_saves_app.
  assert (n_saves evs = 0%nat); [|lia].
  induction Hevs as [|[] evs He _ IH]; done.
Qed.

(** With every image cached, the build comes down to the encoders. *)
Lemma main_when_cached E base_imgs base_vids base_audios w :
  (∀ base, base ∈ values base_imgs → fully_cached w base) →
  ∃ w2, fs w2 = fs w ∧ cache w2 = cache w ∧ calls w2 = calls w
        ∧ n_saves (trace w2) = n_saves (trace w)
        ∧ main E base_imgs base_vids base_audios w
          = try_finally
              (do match base_vids with
                  | [] => ret tt
                  | _ :: _ => for_each (render_video E) (values base_vids)
                  end then
               match base_audios with
               | [] => ret tt
               | _ :: _ => for_each (reencode_audio E) (values base_audios)
               end)
              cache_dump w2.
Proof.
  intros Hall. unfold main, try_finally, cache_dump.
  unfold bind at 1, new_queue. unfold bind at 1, log, emit. cbn beta iota.
  set (w0 := World _ _ _ _ _ _ _).
  assert (Hall0 : ∀ base, base ∈ values base_imgs → fully_cached w0 base).
  { intros base Hin. destruct (Hall base Hin) as (t & img & ? & ?).
    by exists t, img. }
  unfold bind at 1, phase, bind at 1.
  destruct (pool_map_clean E (values base_imgs) w0 Hall0) as (rs & Hrs & Hnone).
  pose proof (scanning_pool_map E (values base_imgs) w0) as Hscan.
  pose proof (pool_map_progress E noncached_images (values base_imgs) w0
                one_unit_noncached_images) as Hprog.
  destruct (pool_map E noncached_images (values base_imgs) w0) as [r w1].
  simpl in Hrs, Hscan. subst r.
  destruct Hprog as (_ & Hq & _).
  pose proof (scanning_saves _ _ Hscan) as Hsaves.
  destruct Hscan as (Hfs & Hc & _ & Hn & _).
  destruct w1 as [f1 c1 mb1 q1 ck1 n1 tr1]. simpl in *. subst q1.
  unfold bind at 1, queue_put. cbn beta iota. simpl.
  unfold bind at 1, handle_pbar. simpl.
  rewrite consume_units. cbn beta iota. unfold ret at 1. rewrite Hnone.
  unfold bind at 1, ret at 1. cbn beta iota.
  exists (World f1 c1 mb1 [] ck1 n1
            (EClose :: replicate (length (values base_imgs)) EUpdate
             ++ EPut None :: tr1)).
  cbn [fs cache calls trace].
  repeat (split; [done|]). split; [|reflexivity].
  change (n_saves (EClose :: ?l)) with (n_saves l). rewrite n_saves_app.
  assert (Hupd : ∀ k, n_saves (replicate k EUpdate) = 0%nat)
    by (induction k; done).
  rewrite Hupd. simpl. lia.
Qed.

(** X5: when every variant of every registered image is cached, the build
    does not start the render phase: whatever the videos and audios, no
    image is saved, and without videos and audios the build returns with
    files and cache as they were. *)
Theorem cached_images_are_not_rendered (E : externals)
    (base_imgs base_vids base_audios : list (path * Base.t)) (w : world) :
  (∀ base, base ∈ values base_imgs → fully_cached w base) →
  n_saves (trace (main E base_imgs base_vids base_audios w).2)
  = n_saves (trace w)
  ∧ (base_vids = [] → base_audios = [] →
     ∃ w', main E base_imgs base_vids base_audios w = (Ok tt, w')
           ∧ fs w' = fs w ∧ cache w' = cache w ∧ calls w' = calls w).
Proof.
  intros Hall.
  destruct (main_when_cached E base_imgs base_vids base_audios w Hall)
    as (w2 & Hfs & Hc & Hn & Hsaves & ->).
  split.
  - unfold try_finally, cache_dump.
    set (vids := match base_vids with [] => _ | _ :: _ => _ end).
    set (auds := match base_audios with [] => _ | _ :: _ => _ end).
    assert (Hvid : preserves encoding vids).
    { subst vids. destruct base_vids; [apply preserves_ret, _|].
      apply preserves_for_each; [apply _|]. apply encoding_render_video. }
    assert (Haud : preserves encoding auds).
    { subst auds. destruct base_audios; [apply preserves_ret, _|].
      apply preserves_for_each; [apply _|]. apply encoding_reencode_audio. }
    unfold bind at 1.
    pose proof (encoding_saves _ _ (Hvid w2)) as Hv.
    destruct (vids w2) as [[[]|e] w3]; simpl in *; [|lia].
    pose proof (encoding_saves _ _ (Haud w3)) as Ha.
    destruct (auds w3) as [r w4]; simpl in *. lia.
  - intros -> ->. eexists. split; [reflexivity|]. by simpl.
Qed.

Lemma cached_images_are_not_rendered_witness :
  ∃ w', main Samples.reliable [("a", Samples.photo_a_small)] [] []
             Samples.half_built
        = (Ok tt, w')
        ∧ fs w' = fs Samples.half_built
        ∧ cache w' = cache Samples.half_built
        ∧ calls w' = calls Samples.half_built.
Proof.
  apply (cached_images_are_not_rendered Samples.reliable
           [("a", Samples.photo_a_small)] [] [] Samples.half_built);
    [|reflexivity|reflexivity].
  intros base Hin. apply list_elem_of_In in Hin as [<-|[]].
  exists 10, Samples.photo. split; [vm_compute; reflexivity|].
  intros th Hin. apply list_elem_of_In in Hin as [<-|[]].
  vm_compute. reflexivity.
Defined.

Ltac grows_leaf :=
  first
    [ apply render_thumbnail_grows
    | intros [? ? ? ? ? ? ?]; unfold grows; run_ops;
      cbv [handle_pbar new_queue cache_dump emit];
      cbn [fs cache MAXBLOCK queue clock calls trace fst snd];
      run_cases; simpl; lia ].

(** X12: the encoder buffer [ImageFile.MAXBLOCK] never shrinks during a
    build, whatever the outcome: the only assignment to it takes the
    maximum with its current value. *)
Theorem MAXBLOCK_never_shrinks (E : externals)
    (base_imgs base_vids base_audios : list (path * Base.t)) (w : world) :
  MAXBLOCK w ≤ MAXBLOCK (main E base_imgs base_vids base_audios w).2.
Proof.
  change (grows w (main E base_imgs base_vids base_audios w).2).
  unfold main, try_finally.
  match goal with |- context [match ?body w with _ => _ end] =>
    assert (Hbody : preserves grows body) end.
  { unfold phase, noncached_images, check_thumbnail, render_thumbnails, prepare,
      reorient, render_video, reencode_video, collect_thumbnail, reencode_audio.
    preserves_with grows_leaf. }
  specialize (Hbody w).
  match goal with |- context [match ?body w with _ => _ end] =>
    destruct (body w) as [r w'] end.
  unfold grows in *. simpl in *. done.
Qed.

(** X18: the progress consumer stops at the first item that is not truthy
    ([None], or a zero) after one update per item before it, and leaves
    the later items on the queue; a queue without such an item leaves it
    waiting for ever. *)
Theorem consume_spec (q : list (option Z)) :
  match consume q with
  | Some (n, rest) =>
      ∃ units stop,
        q = (units ++ stop :: rest)%list
        ∧ Forall (λ item, item_truthy item = true) units
        ∧ item_truthy stop = false
        ∧ length units = n
  | None => Forall (λ item, item_truthy item = true) q
  end.
Proof.
  induction q as [|item q IH]; simpl; [done|].
  destruct (item_truthy item) eqn:Hitem.
  - destruct (consume q) as [[n rest]|]; simpl.
    + destruct IH as (units & stop & -> & Hunits & Hstop & <-).
      exists (item :: units), stop. split; [done|].
      split; [by constructor|done].
    + by constructor.
  - by exists [], item.
Qed.

End PipelineLaws.
(** ** The save parameters *)

Module ParamsFacts.
Import Utils UtilsFacts Steps.

Lemma copy_key_lookup k (src dst : dict) k' :
  copy_key k src dst !! k'
  = if decide (k' = k) then
      match src !! k with Some v => Some v | None => dst !! k end
    else dst !! k'.
Proof.
  unfold copy_key. case_decide as Hk.
  - subst k'. destruct (src !! k); [by rewrite lookup_insert_eq|done].
  - destruct (src !! k); [by rewrite lookup_insert_ne|done].
Qed.

(** What [image_params] holds under each key. *)
Lemma image_params_lookup img options k :
  image_params img options !! k
  = if decide (k = "exif") then
      if truthy (VExif (getexif img)) then Some (VExif (getexif img)) else None
    else if decide (k = "subsampling") then
      if bool_decide (format img = "JPEG") || bool_decide (format img = "MPO")
      then Some (VInt (get_sampling img)) else None
    else if decide (k = "dpi") then info img !! "dpi"
    else if decide (k = "quality") then options !! "quality"
    else if decide (k = "progressive") then options !! "progressive"
    else if decide (k = "format") then Some (VStr (format img))
    else None.
Proof.
  unfold image_params.
  repeat case_decide; subst;
    repeat match goal with
    | |- context [if ?b then _ else _] => destruct b eqn:?
    end;
    rewrite ?lookup_insert_eq, ?lookup_insert_ne, ?copy_key_lookup by done;
    repeat (rewrite ?lookup_insert_eq, ?lookup_insert_ne, ?copy_key_lookup by done;
            try case_decide; try done);
    rewrite ?lookup_singleton_eq, ?lookup_singleton_ne by done;
    repeat case_match; try done.
Qed.

Lemma get_flag_image_params_exif img options :
  get_flag (image_params img options) "exif" = truthy (VExif (getexif img)).
Proof.
  unfold get_flag. rewrite image_params_lookup.
  rewrite decide_True by done.
  destruct (truthy (VExif (getexif img))) eqn:Hexif; [exact Hexif|done].
Qed.

Lemma get_flag_delete (d : dict) k : get_flag (delete k d) k = false.
Proof. unfold get_flag. by rewrite lookup_delete_eq. Qed.

Lemma remove_superficial_options_delete_exif (d : dict) :
  remove_superficial_options (delete "exif" d) = remove_superficial_options d.
Proof.
  apply map_eq. intros k. rewrite !remove_superficial_options_lookup.
  case_decide as Hk; [done|]. rewrite lookup_delete_ne; [done|].
  intros <-. apply Hk. compute_done.
Qed.

Lemma cache_params_exif img options :
  get_flag options "strip" = true → cache_params img options !! "exif" = None.
Proof.
  intros Hstrip. unfold cache_params.
  rewrite get_flag_image_params_exif, Hstrip, andb_true_r.
  destruct (truthy (VExif (getexif img))) eqn:Hexif.
  - apply lookup_delete_eq.
  - rewrite image_params_lookup. rewrite decide_True by done.
    by rewrite Hexif.
Qed.

Lemma cache_params_format img options :
  cache_params img options !! "format" = Some (VStr (format img)).
Proof.
  unfold cache_params. destruct (_ && _).
  - rewrite lookup_delete_ne by done. by rewrite image_params_lookup.
  - by rewrite image_params_lookup.
Qed.

End ParamsFacts.

Module ParamsLaws.
Import Utils UtilsFacts Steps ParamsFacts.

(** X1: [image_params] reads nothing of the options but [quality] and
    [progressive]: its result always names the format of the image, holds
    no key but format, progressive, quality, dpi, subsampling and exif,
    and is the same for two option mappings that agree on quality and
    progressive. *)
Theorem image_params_options (img : image) (options options' : dict) :
  image_params img options !! "format" = Some (VStr (format img))
  ∧ (∀ k, is_Some (image_params img options !! k) →
          k ∈ ["format"; "progressive"; "quality"; "dpi"; "subsampling"; "exif"])
  ∧ (options !! "quality" = options' !! "quality" →
     options !! "progressive" = options' !! "progressive" →
     image_params img options = image_params img options').
Proof.
  split; [by rewrite image_params_lookup|]. split.
  - intros k. rewrite image_params_lookup.
    repeat (case_decide; [subst k; intros _; compute_done|]).
    by intros [? [=]].
  - intros Hq Hp. apply map_eq. intros k.
    rewrite !image_params_lookup, Hq, Hp. done.
Qed.

Lemma image_params_options_witness :
  image_params Samples.photo {[ "quality" := VInt 75; "name" := VStr "a" ]}
  = image_params Samples.photo {[ "quality" := VInt 75; "strip" := VBool true ]}.
Proof.
  apply (image_params_options Samples.photo
           {[ "quality" := VInt 75; "name" := VStr "a" ]}
           {[ "quality" := VInt 75; "strip" := VBool true ]});
    vm_compute; reflexivity.
Defined.

End ParamsLaws.

Module PrepareFacts.
Import Utils UtilsFacts Steps ParamsFacts ScanFacts.

(** [reorient] hands the parameters on unchanged, or without their EXIF
    entry when Pillow could not handle it and stripping is not asked. *)
Lemma reorient_params E base img (p : dict) w img' p' w' :
  reorient E base img p w = (Ok (img', p'), w') →
  p' = p ∨ (p' = delete "exif" p ∧ get_flag (Base.options base) "strip" = false).
Proof.
  destruct w as [f c mb q ck n tr].
  unfold reorient. run_ops.
  run_cases; intros [= <- <- <-]; auto.
  all: right; split; [done|]; by apply negb_true_iff.
Qed.

(** [prepare] hands on the parameters of the scan worker, or those
    without their EXIF entry. *)
Lemma prepare_cases E base w w' img img0 (params : dict) t :
  fs w !! Base.filepath base = Some (File t (Some img0)) →
  prepare E base w = (Ok (img, params), w') →
  params = cache_params img0 (Base.options base)
  ∨ params = delete "exif" (cache_params img0 (Base.options base)).
Proof.
  intros Hopen. unfold prepare.
  cbv [bind log emit Image_open ret].
  cbn [fs cache MAXBLOCK queue clock calls trace fst snd].
  rewrite Hopen. cbn [fst snd].
  lazymatch goal with
  | |- context [reorient ?a ?b ?c ?d ?e] =>
      destruct (reorient a b c d e) as [[[img1 p1]|e0] w1] eqn:Hre; [|done]
  end.
  apply reorient_params in Hre.
  cbn [fst snd]. rewrite strip_exif_run.
  intros [= <- <- <-]. unfold cache_params.
  destruct Hre as [Hp|[Hp Hstrip]]; subst p1.
  - left. reflexivity.
  - rewrite Hstrip, get_flag_delete, !andb_false_r. right. reflexivity.
Qed.

End PrepareFacts.

Module PrepareLaws.
Import Utils UtilsFacts Steps ParamsFacts ScanFacts PrepareFacts.

(** X2: the parameters the render worker prepares are those the scan
    worker hands to the cache, except that the work-around for EXIF data
    Pillow cannot handle may have dropped the EXIF entry; either way both
    phases present the same mapping once the superficial keys are
    stripped.  The parameters name the format of the source, and hold no
    EXIF data when stripping is asked. *)
Theorem prepare_params (E : externals) (base : Base.t) (w w' : world)
    (img img0 : image) (params : dict) (t : Z) :
  fs w !! Base.filepath base = Some (File t (Some img0)) →
  prepare E base w = (Ok (img, params), w') →
  let scan := cache_params img0 (Base.options base) in
  (params = scan ∨ params = delete "exif" scan)
  ∧ remove_superficial_options params = remove_superficial_options scan
  ∧ (get_flag (Base.options base) "strip" = true → params !! "exif" = None)
  ∧ params !! "format" = Some (VStr (format img0)).
Proof.
  intros Hopen Hprep scan.
  assert (Hcases : params = scan ∨ params = delete "exif" scan)
    by exact (prepare_cases _ _ _ _ _ _ _ _ Hopen Hprep).
  split; [done|]. split; [|split].
  - destruct Hcases as [->| ->]; [done|].
    apply remove_superficial_options_delete_exif.
  - intros Hstrip. destruct Hcases as [->| ->].
    + by apply cache_params_exif.
    + apply lookup_delete_eq.
  - destruct Hcases as [->| ->].
    + apply cache_params_format.
    + rewrite lookup_delete_ne by done. apply cache_params_format.
Qed.

Lemma prepare_params_witness :
  remove_superficial_options (delete "exif" Cases.tagged_params)
  = remove_superficial_options
      (cache_params Cases.tagged (Base.options Cases.tagged_t))
  ∧ (delete "exif" Cases.tagged_params : dict) !! "format" = Some (VStr "JPEG").
Proof.
  assert (Hopen :
    fs Cases.tagged_world !! Base.filepath Cases.tagged_t
    = Some (File 10 (Some Cases.tagged))) by (vm_compute; reflexivity).
  assert (Hprep :
    prepare Cases.old_pillow Cases.tagged_t Cases.tagged_world
    = (Ok (Cases.tagged, delete "exif" Cases.tagged_params),
       (prepare Cases.old_pillow Cases.tagged_t Cases.tagged_world).2))
    by (vm_compute; reflexivity).
  destruct (prepare_params Cases.old_pillow Cases.tagged_t Cases.tagged_world
              _ _ _ _ _ Hopen Hprep) as (_ & Hsame & _ & Hformat).
  split; [exact Hsame|exact Hformat].
Defined.

End PrepareLaws.

(** ** What the workers leave alone *)

Module FrameFacts.
Import Steps TraceFacts RenderLaws.

#[global] Instance keeps_file_preorder p : PreOrder (keeps_file p).
Proof.
  split; [by intros w|].
  intros w1 w2 w3 H12 H23. unfold keeps_file in *. congruence.
Qed.

Lemma preserves_for_in_elem {X S T} (R : relation world) `{!PreOrder R}
    (xs : list X) (s : S) (body : X → S → M (ctl T * S)) :
  (∀ x s, x ∈ xs → preserves R (body x s)) → preserves R (for_in xs s body).
Proof.
  revert s. induction xs as [|x xs IH]; intros s Hbody; simpl.
  - by apply preserves_ret.
  - apply preserves_bind; [done|apply Hbody; left|].
    intros [[|r] s']; [|by apply preserves_ret].
    apply IH. intros x' s'' Hin. apply Hbody. by right.
Qed.

Lemma render_thumbnail_keeps_file E base img th params p :
  build_path (Thumbnail.filepath th) ≠ p →
  preserves (keeps_file p) (render_thumbnail E base img th params).
Proof.
  intros Hp [f c mb q ck n tr]. unfold keeps_file, render_thumbnail.
  run_ops. run_cases.
  all: cbn [fs snd]; rewrite ?lookup_insert_ne by done; reflexivity.
Qed.

Lemma prepare_keeps_file E base p : preserves (keeps_file p) (prepare E base).
Proof.
  intros w. destruct (prepare_frame E base w) as ((Hfs & _) & _).
  unfold keeps_file. by rewrite Hfs.
Qed.

Lemma render_thumbnails_keeps_file E base p :
  p ∉ variant_paths base → preserves (keeps_file p) (render_thumbnails E base).
Proof.
  intros Hp. unfold render_thumbnails.
  apply preserves_bind; [apply _|apply prepare_keeps_file|intros [img params]].
  apply preserves_bind; [apply _| |intros _; by intros [? ? ? ? ? ? ?]].
  apply preserves_for_in_elem; [apply _|]. intros th params' Hin.
  apply render_thumbnail_keeps_file. intros <-. apply Hp.
  unfold variant_paths. apply list_elem_of_fmap. by exists th.
Qed.

End FrameFacts.

Module FrameLaws.
Import Steps TraceFacts RenderLaws PipelineLaws FrameFacts.

(** X9: the render workers write no file but the variants of their own
    assets: whatever the encoder does, a path that is not the destination
    of a variant of an asset of the batch holds after the batch what it
    held before.  In particular a source that is not itself the destination
    of a variant is never overwritten. *)
Theorem render_thumbnails_writes_only_variants (E : externals)
    (bases : list Base.t) (w : world) (p : path) :
  (∀ base, base ∈ bases → p ∉ variant_paths base) →
  fs (pool_map E (render_thumbnails E) bases w).2 !! p = fs w !! p.
Proof.
  intros Hp. revert w.
  change (preserves (keeps_file p) (pool_map E (render_thumbnails E) bases)).
  apply preserves_pool_map_elem; [apply _|]. intros base Hin.
  apply render_thumbnails_keeps_file. by apply Hp.
Qed.

Lemma render_thumbnails_writes_only_variants_witness :
  fs (pool_map Samples.reliable (render_thumbnails Samples.reliable)
               [Samples.photo_a; Samples.photo_b] Samples.fresh_world).2
    !! "g/a.jpg"
  = fs Samples.fresh_world !! "g/a.jpg".
Proof.
  apply (render_thumbnails_writes_only_variants Samples.reliable
           [Samples.photo_a; Samples.photo_b] Samples.fresh_world "g/a.jpg").
  intros base Hin Hp.
  apply list_elem_of_In in Hin as [<-|[<-|[]]];
    vm_compute in Hp; apply list_elem_of_In in Hp; simpl in Hp;
    repeat (destruct Hp as [Hp|Hp]; [discriminate Hp|]); exact Hp.
Defined.

(** X3: the scan phase reads and never writes: a scan worker, and a whole
    batch of them, leave the files, the cache, the encoder buffer and the
    count of encoder calls as they were; all they do is open sources,
    check the cache and put units on the progress queue. *)
Theorem scan_is_read_only (E : externals) (bases : list Base.t) (w : world) :
  scanning w (pool_map E noncached_images bases w).2
  ∧ ∀ base, base ∈ bases → scanning w (noncached_images base w).2.
Proof.
  split; [apply scanning_pool_map|].
  intros base _. apply scanning_noncached_images.
Qed.

End FrameLaws.

(** ** A rendered asset is cached *)

Module RebuildFacts.
Import Utils UtilsFacts Steps TraceFacts CacheFacts RenderLaws ParamsFacts
  PrepareFacts.

(** The cache looks at the options through
    [remove_superficial_options] only. *)
Lemma needs_same_options fs c src dst (p q : dict) :
  remove_superficial_options p = remove_superficial_options q →
  Cache.needs_to_be_generated fs c src dst p
  = Cache.needs_to_be_generated fs c src dst q.
Proof.
  intros Hpq. unfold Cache.needs_to_be_generated, Cache.fingerprint_of.
  by rewrite Hpq.
Qed.

Lemma prepare_readable E base w r w' :
  prepare E base w = (Ok r, w') → readable (fs w) (Base.filepath base).
Proof.
  unfold prepare, readable. cbv [bind log emit Image_open].
  cbn [fs cache MAXBLOCK queue clock calls trace fst snd].
  destruct (fs w !! Base.filepath base) as [[t [img|]]|]; [eauto|done..].
Qed.

Section Step.
Context (E : externals) (base : Base.t) (img : image).

Let src := Base.filepath base.
Let dst th := build_path (Thumbnail.filepath th).

(** What a variant that does not raise leaves in the store: nothing when
    it was found cached, and else the file it saved and the record made
    for it under the parameters it hands on. *)
Lemma render_thumbnail_store th (p : dict) w :
  match render_thumbnail E base img th p w with
  | (Ok (c, p'), w1) =>
      c = Next
      ∧ (p' = p ∨ p' = delete "exif" p)
      ∧ ((fs w1 = fs w ∧ cache w1 = cache w
          ∧ Cache.needs_to_be_generated (fs w) (cache w) src (dst th) p = false)
         ∨ ∃ file,
             fs w1 = <[dst th := file]> (fs w)
             ∧ cache w1
               = Cache.cache_picture (fs w1) (cache w) src (dst th) p')
  | (Raise _, _) => True
  end.
Proof.
  destruct w as [f c mb q ck n tr]. subst src dst. unfold render_thumbnail.
  run_ops. run_cases.
  all: try exact I.
  all: split; [reflexivity|].
  all: cbn [fs cache snd fst].
  all: first
    [ split; [by left|]; first
        [ left; split; [done|]; split; [done|];
          by apply negb_true_iff
        | right; eexists; split; reflexivity ]
    | split; [by right|]; right; eexists; split; reflexivity ].
Qed.

Context (scan : dict).

Let clean (w : world) (d : path) : Prop :=
  Cache.needs_to_be_generated (fs w) (cache w) src d scan = false.

Lemma render_thumbnail_cached th (p : dict) w c p' w1 :
  src ≠ dst th →
  remove_superficial_options p = remove_superficial_options scan →
  render_thumbnail E base img th p w = (Ok (c, p'), w1) →
  c = Next
  ∧ remove_superficial_options p' = remove_superficial_options scan
  ∧ fs w1 !! src = fs w !! src
  ∧ clean w1 (dst th)
  ∧ ∀ d, clean w d → clean w1 d.
Proof.
  intros Hsrc Hp Hrun. subst clean. cbv beta.
  pose proof (render_thumbnail_store th p w) as Hstore.
  rewrite Hrun in Hstore. destruct Hstore as (-> & Hp' & Hstore).
  assert (Hscan : remove_superficial_options p'
                  = remove_superficial_options scan).
  { destruct Hp' as [->| ->]; [done|].
    by rewrite remove_superficial_options_delete_exif. }
  split; [done|]. split; [done|].
  destruct Hstore as [(Hfs & Hc & Hclean)|(file & Hfs & Hc)].
  - rewrite Hfs, Hc. split; [done|]. split; [|done].
    by rewrite <-(needs_same_options _ _ _ _ p scan).
  - assert (Hthis :
      Cache.needs_to_be_generated (fs w1) (cache w1) src (dst th) scan = false).
    { rewrite <-(needs_same_options _ _ _ _ p' scan) by done.
      rewrite Hc. apply needs_after_record.
      rewrite Hfs, lookup_insert_eq. by eexists. }
    split; [by rewrite Hfs, lookup_insert_ne|]. split; [done|].
    intros d Hd. destruct (decide (d = dst th)) as [->|Hne]; [done|].
    rewrite <-Hd. apply needs_frame.
    + rewrite Hc. unfold Cache.cache_picture.
      rewrite lookup_insert_ne; [done|]. intros [=]. by apply Hne.
    + by rewrite Hfs, lookup_insert_ne.
    + by rewrite Hfs, lookup_insert_ne.
Qed.

Lemma render_loop_cached ts (p : dict) w r w' :
  (∀ th, th ∈ ts → src ≠ dst th) →
  remove_superficial_options p = remove_superficial_options scan →
  for_in ts p (render_thumbnail E base img) w = (Ok r, w') →
  fs w' !! src = fs w !! src
  ∧ (∀ d, clean w d → clean w' d)
  ∧ (∀ th, th ∈ ts → clean w' (dst th)).
Proof.
  revert p w. induction ts as [|th ts IH]; intros p w Hsrc Hp; simpl.
  { intros [= <- <-]. split; [done|]. split; [done|].
    intros th Hin. by apply elem_of_nil in Hin. }
  unfold bind at 1.
  destruct (render_thumbnail E base img th p w) as [[[c p']|e] w1] eqn:Hrun;
    [|done].
  apply render_thumbnail_cached in Hrun as (-> & Hp' & Hfs & Hth & Hkeep);
    [|apply Hsrc; by left|done].
  intros Hloop.
  apply IH in Hloop as (Hfs' & Hkeep' & Hall);
    [|intros th' Hin; apply Hsrc; by right|done].
  split; [by rewrite Hfs'|]. split; [by auto|].
  intros th' [->|Hin]%elem_of_cons; [by apply Hkeep'|by apply Hall].
Qed.

End Step.

End RebuildFacts.

Module RebuildLaws.
Import Utils UtilsFacts Steps TraceFacts CacheFacts RenderLaws ParamsFacts
  PrepareFacts PipelineLaws RebuildFacts.

(** X19: a render worker that returns leaves nothing to do for its asset,
    whatever the encoder did on the way (retries and dropped EXIF data
    included): as long as the source is not itself the destination of a
    variant, every variant is cached afterwards under the parameters the
    scan worker computes, and a scan of the asset returns nothing. *)
Theorem rendered_asset_is_cached (E : externals) (base : Base.t) (w w' : world) :
  Base.filepath base ∉ variant_paths base →
  render_thumbnails E base w = (Ok tt, w') →
  fully_cached w' base ∧ (noncached_images base w').1 = Ok None.
Proof.
  intros Hsrc Hrun.
  assert (Hcached : fully_cached w' base);
    [|split; [done|by apply noncached_images_clean]].
  revert Hrun. unfold render_thumbnails. unfold bind at 1.
  destruct (prepare E base w) as [[[img params]|e] w0] eqn:Hprep; [|done].
  pose proof (prepare_readable _ _ _ _ _ Hprep) as (t & img0 & Hopen).
  destruct (prepare_frame E base w) as ((Hfs0 & Hc0 & _) & _).
  rewrite Hprep in Hfs0, Hc0. cbn [snd] in Hfs0, Hc0.
  assert (Hscan : remove_superficial_options params
                  = remove_superficial_options
                      (cache_params img0 (Base.options base))).
  { destruct (prepare_cases _ _ _ _ _ _ _ _ Hopen Hprep) as [->| ->]; [done|].
    apply remove_superficial_options_delete_exif. }
  unfold bind at 1.
  destruct (for_in _ _ _ w0) as [[r|e] w1] eqn:Hloop; [|done].
  apply (render_loop_cached E base img (cache_params img0 (Base.options base)))
    in Hloop as (Hfs1 & _ & Hall); [| |done].
  2: { intros th Hin Heq. apply Hsrc. unfold variant_paths.
       apply list_elem_of_fmap. by exists th. }
  unfold queue_put. intros [= <-]. exists t, img0. cbn [fs cache].
  split; [by rewrite Hfs1, Hfs0|]. exact Hall.
Qed.

Lemma rendered_asset_is_cached_witness :
  (noncached_images Samples.photo_a
     (render_thumbnails Samples.fails_once Samples.photo_a
                        Samples.fresh_world).2).1
  = Ok None.
Proof.
  apply (rendered_asset_is_cached Samples.fails_once Samples.photo_a
           Samples.fresh_world).
  - intros Hin. vm_compute in Hin. apply list_elem_of_In in Hin. simpl in Hin.
    repeat (destruct Hin as [Hin|Hin]; [discriminate Hin|]). exact Hin.
  - vm_compute. reflexivity.
Defined.

End RebuildLaws.
